(** * The retrieval core of CAPS Ops AI (src/src/App.jsx)

    A shallow embedding of the client-side retrieval code: [tokenize],
    [dot], [cosineSim], [fetchEmbedding], [callAnswerAPI], the chunking loop
    of [handleFileUpload] and the ranking of [handleAsk].

    - A JavaScript string is the list of its UTF-16 code units.
    - A JavaScript number computed by [cosineSim] is an IEEE 754 binary64
      value, Rocq's primitive [float]; an array length is a natural number.
    - [fetch] and [crypto.randomUUID] are oracles of the environment; the
      requests a handler makes are recorded in the world it threads.
    - [String.prototype.toLowerCase] and [Array.prototype.sort] belong to
      the runtime.  The first is a parameter of the code.  The second is
      the stable sort that ECMAScript requires when the comparison
      function is consistent; when it is not (a comparison that returns
      NaN), ECMAScript leaves the order to the engine, and the order the
      engine chooses is a parameter of the code.
    - The chunking loop takes fuel; the fuel the upload gives it is shown
      to be enough for every text.

    Around the core, the file embeds the fallback of [uuid], the session
    of [App] ([toggleMode], [handlePartnerLogin] and the conditions under
    which the login form and the file input are rendered), the file name
    of [downloadDoc], the labels of the sources in [renderQA], and the two
    serverless functions (src/api/embed.js and the answer function) with
    their provider as an oracle; [deployed] puts the client in front of
    them. *)

From Stdlib Require Import String Ascii.
From Stdlib Require Import List Bool Arith NArith ZArith Lia.
From Stdlib Require Import Permutation Sorted.
From Stdlib Require Import Floats Uint63.
From Stdlib Require HexString.
Import ListNotations.

Set Implicit Arguments.

(** ** JavaScript strings *)

Definition codeUnit := N.
Definition jsString := list codeUnit.

(** The code units of an ASCII literal of the source. *)
Definition lit (s : string) : jsString :=
  map N_of_ascii (list_ascii_of_string s).

Definition jsString_eqb (s t : jsString) : bool :=
  if list_eq_dec N.eq_dec s t then true else false.

(** [Boolean(s)] for a string: only the empty string is falsy. *)
Definition nonEmpty (s : jsString) : bool :=
  match s with [] => false | _ :: _ => true end.

(** A value that may be [undefined] or [null], as JavaScript has them. *)
Inductive Nullable (A : Type) : Type :=
| Undefined
| Null
| Value (a : A).
Arguments Undefined {A}.
Arguments Null {A}.

(** [xs.slice(start, end)] for non-negative indices: both are clamped to the
    length, and an empty range gives the empty result. *)
Definition slice {A : Type} (xs : list A) (start end_ : nat) : list A :=
  let len := length xs in
  let from := Nat.min start len in
  let to := Nat.min end_ len in
  firstn (to - from) (skipn from xs).

(** [parts.join(sep)]. *)
Fixpoint join (sep : jsString) (parts : list jsString) : jsString :=
  match parts with
  | [] => []
  | [p] => p
  | p :: rest => p ++ sep ++ join sep rest
  end.

(** [arr.includes(t)] on an array of strings. *)
Definition includes (arr : list jsString) (t : jsString) : bool :=
  existsb (jsString_eqb t) arr.

(** The code units [String.prototype.trim] strips: WhiteSpace and
    LineTerminator of ECMAScript. *)
Definition isWhiteSpace (c : codeUnit) : bool :=
  ((9 <=? c) && (c <=? 13) || (c =? 32) || (c =? 160) || (c =? 5760)
   || (8192 <=? c) && (c <=? 8202) || (c =? 8232) || (c =? 8233)
   || (c =? 8239) || (c =? 8287) || (c =? 12288) || (c =? 65279))%N.

Fixpoint trimStart (s : jsString) : jsString :=
  match s with
  | c :: s' => if isWhiteSpace c then trimStart s' else s
  | [] => []
  end.

Definition trimEnd (s : jsString) : jsString := rev (trimStart (rev s)).

Definition trim (s : jsString) : jsString := trimEnd (trimStart s).

(** ** tokenize *)

(** The class [[a-z0-9]] of the regular expression in [tokenize]. *)
Definition isTokenUnit (c : codeUnit) : bool :=
  ((97 <=? c) && (c <=? 122) || (48 <=? c) && (c <=? 57))%N.

(** [s.split(/[^a-z0-9]+/)]: the pieces of [s] between the maximal runs of
    code units outside [[a-z0-9]].  [piece] is the piece being read and
    [inRun] tells that the last code unit belonged to a separator run. *)
Fixpoint splitLoop (piece : jsString) (inRun : bool) (s : jsString)
  : list jsString :=
  match s with
  | [] => [piece]
  | c :: s' =>
      if isTokenUnit c then splitLoop (piece ++ [c]) false s'
      else if inRun then splitLoop piece true s'
      else piece :: splitLoop [] true s'
  end.

Definition split (s : jsString) : list jsString := splitLoop [] false s.

(** The tokens of a string, in the words of the specification: the string
    is a run of separators, a token, a run of separators, and so on; a
    token is a maximal non-empty run of code units of [[a-z0-9]]. *)
Definition isToken (t : jsString) : Prop :=
  t <> [] /\ Forall (fun c => isTokenUnit c = true) t.

Definition isSeparatorRun (d : jsString) : Prop :=
  Forall (fun c => isTokenUnit c = false) d.

Definition endsToken (rest : jsString) : Prop :=
  match rest with
  | [] => True
  | c :: _ => isTokenUnit c = false
  end.

Inductive Tokens : jsString -> list jsString -> Prop :=
| Tokens_end : forall d, isSeparatorRun d -> Tokens d []
| Tokens_next : forall d t rest toks,
    isSeparatorRun d -> isToken t -> endsToken rest ->
    Tokens rest toks ->
    Tokens (d ++ t ++ rest) (t :: toks).


(** The lower-casing of the runtime on ASCII text: [A-Z] is mapped to
    [a-z], every other code unit is kept. *)
Definition lowerUnit (c : codeUnit) : codeUnit :=
  if ((65 <=? c) && (c <=? 90))%N then (c + 32)%N else c.

Definition asciiLowerCase (s : jsString) : jsString := map lowerUnit s.

(** What the tokenizer needs of the runtime's lower-casing: text made of
    [[a-z0-9]] and spaces is already in lower case. *)
Definition keepsTokenText (lower : jsString -> jsString) : Prop :=
  forall u,
    Forall (fun c => isTokenUnit c = true \/ c = 32%N) u -> lower u = u.

(** ** JavaScript numbers *)

(** The numbers of the retrieval core: a double, or an array length.  An
    array length is an integer below 2^32, on which the double arithmetic
    of the runtime is exact; it is kept as a natural number. *)
Inductive Number : Type :=
| Double (x : float)
| Count (n : nat).

Definition toDouble (v : Number) : float :=
  match v with
  | Double x => x
  | Count n => PrimFloat.of_uint63 (Uint63.of_Z (Z.of_nat n))
  end.

(** [Boolean(x)] for a double: [0], [-0] and [NaN] are falsy. *)
Definition truthy (x : float) : bool :=
  negb (PrimFloat.is_zero x || PrimFloat.is_nan x).

(** [x && y] on doubles. *)
Definition andAlso (x y : float) : float := if truthy x then y else x.

(** The sign a comparison function's result has for [Array.prototype.sort]:
    [NaN] counts as [+0]. *)
Definition signOf (v : float) : comparison :=
  if (0 <? v)%float then Gt else if (v <? 0)%float then Lt else Eq.

(** The sign of [b - a]. *)
Definition signOfDifference (b a : Number) : comparison :=
  match b, a with
  | Count n, Count m => Nat.compare n m
  | _, _ => signOf (toDouble b - toDouble a)%float
  end.

(** Whether [b - a] is [NaN]. *)
Definition differenceIsNaN (b a : Number) : bool :=
  match b, a with
  | Count _, Count _ => false
  | _, _ => PrimFloat.is_nan (toDouble b - toDouble a)%float
  end.

(** [a <= b] as the runtime evaluates it. *)
Definition numberLe (a b : Number) : bool :=
  match a, b with
  | Count m, Count n => m <=? n
  | _, _ => (toDouble a <=? toDouble b)%float
  end.

(** [a === b] as the runtime evaluates it. *)
Definition numberEq (a b : Number) : bool :=
  match a, b with
  | Count m, Count n => m =? n
  | _, _ => (toDouble a =? toDouble b)%float
  end.

Definition isNaN (v : Number) : bool :=
  match v with
  | Double x => PrimFloat.is_nan x
  | Count _ => false
  end.

(** function dot(a, b): an index past the end of an array reads
    [undefined], which arithmetic turns into [NaN]. *)
Definition dot (a b : list float) : float :=
  let len := Nat.min (length a) (length b) in
  fold_left (fun sum i => (sum + nth i a nan * nth i b nan)%float)
            (seq 0 len) 0%float.

(** The loops [for (const x of v) mag += x * x] of [cosineSim]. *)
Definition sumSquares (v : list float) : float :=
  fold_left (fun mag x => (mag + x * x)%float) v 0%float.

(** function cosineSim(a, b) *)
Definition cosineSim (a b : list float) : float :=
  let num := dot a b in
  let magA := sumSquares a in
  let magB := sumSquares b in
  if truthy (andAlso magA magB)
  then (num / PrimFloat.sqrt (magA * magB))%float
  else 0%float.

(** ** Array.prototype.sort *)

Definition sameSign (c d : comparison) : bool :=
  match c, d with
  | Eq, Eq | Lt, Lt | Gt, Gt => true
  | _, _ => false
  end.

(** Where the engine puts an element: at place [n] of the elements placed
    before it, or behind them all. *)
Fixpoint insertAt {A : Type} (n : nat) (x : A) (xs : list A) : list A :=
  match n, xs with
  | S n', y :: ys => y :: insertAt n' x ys
  | _, _ => x :: xs
  end.

(** The elements of [xs], each at the place the engine gives it. *)
Fixpoint rearranged {A : Type} (places : list nat) (xs : list A) : list A :=
  match xs with
  | [] => []
  | x :: xs' => insertAt (hd 0 places) x (rearranged (tl places) xs')
  end.

Section Sort.

Variable A : Type.
(** The comparison function: the sign of its result, for which [NaN]
    counts as [+0], and whether its result is [NaN]. *)
Variable comparefn : A -> A -> comparison.
Variable returnsNaN : A -> A -> bool.

(** The stable sort: an element moves behind another one only when the
    comparison function says it is greater. *)
Fixpoint insertSorted (x : A) (sorted : list A) : list A :=
  match sorted with
  | [] => [x]
  | y :: rest =>
      match comparefn x y with
      | Gt => y :: insertSorted x rest
      | _ => x :: sorted
      end
  end.

Definition sort (xs : list A) : list A := fold_right insertSorted [] xs.

(** The requirements of ECMAScript on a consistent comparison function,
    for three of the elements: the result is never [NaN]; [a =CF a]; if
    [a =CF b] then [b =CF a]; [=CF], [<CF] and [>CF] are transitive. *)
Definition consistentAt (a b c : A) : bool :=
  negb (returnsNaN a b)
  && sameSign (comparefn a a) Eq
  && implb (sameSign (comparefn a b) Eq) (sameSign (comparefn b a) Eq)
  && implb (sameSign (comparefn a b) Eq && sameSign (comparefn b c) Eq)
       (sameSign (comparefn a c) Eq)
  && implb (sameSign (comparefn a b) Lt && sameSign (comparefn b c) Lt)
       (sameSign (comparefn a c) Lt)
  && implb (sameSign (comparefn a b) Gt && sameSign (comparefn b c) Gt)
       (sameSign (comparefn a c) Gt).

Definition consistent (xs : list A) : bool :=
  forallb (fun a =>
             forallb (fun b => forallb (fun c => consistentAt a b c) xs) xs)
          xs.

(** The places the engine gives the elements of an array when the
    comparison function is not consistent for them. *)
Variable engineOrder : list A -> list nat.

(** [xs.sort(comparefn)]: sorted and stable when the comparison function
    is consistent for the elements, and otherwise in the order of the
    engine, which ECMAScript does not define. *)
Definition arraySort (xs : list A) : list A :=
  if consistent xs then sort xs else rearranged (engineOrder xs) xs.

End Sort.

(** ** The data of the application *)

Record Chunk : Type := mkChunk {
  id : jsString;
  docId : jsString;
  text : jsString;
  embedding : Nullable (list float)
}.

Record Doc : Type := mkDoc {
  doc_id : jsString;
  name : jsString;
  pages : nat;
  content : jsString
}.

(** [{ ...ch, score }] *)
Record Scored : Type := mkScored {
  chunk : Chunk;
  score : Number
}.

Record Answer : Type := mkAnswer {
  answer_text : Nullable jsString;
  sources : list Scored
}.

(** The React state of [App] the core reads and writes. *)
Record AppState : Type := mkAppState {
  docs : list Doc;
  index : list Chunk;
  query : jsString;
  answer : option Answer
}.

Definition setAnswer (st : AppState) (a : option Answer) : AppState :=
  {| docs := docs st; index := index st; query := query st; answer := a |}.

(** ** The environment: fetch and crypto.randomUUID *)

(** The body of a response as the client reads it: [resp.json()] rejects on
    text that is not JSON; otherwise the client reads one property of the
    parsed value, which throws when that value is [null]. *)
Inductive Body (A : Type) : Type :=
| Unparseable
| ParsedNull
| Parsed (property : Nullable A).
Arguments Unparseable {A}.
Arguments ParsedNull {A}.

Inductive FetchResult (A : Type) : Type :=
| Rejected
| Response (status : nat) (body : Body A).
Arguments Rejected {A}.

(** [resp.ok] *)
Definition ok (status : nat) : bool := (200 <=? status) && (status <=? 299).

Inductive Request : Type :=
| PostEmbed (input : jsString)
| PostAnswer (context question : jsString).

(** What the collaborators answer; an answer may depend on the number of
    requests made before. *)
Record Env : Type := mkEnv {
  embedEndpoint : nat -> jsString -> FetchResult (list float);
  answerEndpoint : nat -> jsString -> jsString -> FetchResult jsString;
  randomUUID : nat -> jsString
}.

Record World : Type := mkWorld {
  requests : list Request;
  uuids : nat
}.

Definition IO (A : Type) : Type := World -> A * World.

Definition ret {A : Type} (a : A) : IO A := fun w => (a, w).

Definition bind {A B : Type} (m : IO A) (k : A -> IO B) : IO B :=
  fun w => let (a, w') := m w in k a w'.

Notation "x <- m ;; k" := (bind m (fun x => k))
  (at level 61, m at next level, right associativity).

(** ** The application code *)

(** A file picked by the operator: its name and what pdf.js reads from it,
    the text items of every page, or [None] when parsing fails. *)
Record File : Type := mkFile {
  file_name : jsString;
  file_pdf : option (list (list jsString))
}.

(** The separator of the context, ['\n---\n']. *)
Definition separator : jsString := [10; 45; 45; 45; 10]%N.

(** The answer of [callAnswerAPI] when the provider fails. *)
Definition apology : jsString :=
  lit "Sorry, I was unable to generate an answer at this time.".

Section App.

(** [String.prototype.toLowerCase] belongs to the runtime; the code is
    parameterised by it. *)
Variable toLowerCase : jsString -> jsString.

(** The order [Array.prototype.sort] gives an array of scored chunks when
    the comparison function is not consistent for it is chosen by the
    engine; the code is parameterised by it. *)
Variable sortOrder : list Scored -> list nat.

Variable env : Env.

(** function tokenize(str) *)
Definition tokenize (str : Nullable jsString) : list jsString :=
  match str with
  | Undefined | Null | Value [] => []
  | Value s => filter nonEmpty (split (toLowerCase s))
  end.

(** [fetch('/api/embed', ...)] and [fetch('/api/answer', ...)]. *)
Definition postEmbed (input : jsString) : IO (FetchResult (list float)) :=
  fun w =>
    (embedEndpoint env (length (requests w)) input,
     {| requests := requests w ++ [PostEmbed input]; uuids := uuids w |}).

Definition postAnswer (context question : jsString)
  : IO (FetchResult jsString) :=
  fun w =>
    (answerEndpoint env (length (requests w)) context question,
     {| requests := requests w ++ [PostAnswer context question];
        uuids := uuids w |}).

(** async function fetchEmbedding(text): every exception of the [try]
    block ends in [return null]. *)
Definition fetchEmbedding (text : jsString) : IO (Nullable (list float)) :=
  resp <- postEmbed text ;;
  ret match resp with
      | Rejected => Null
      | Response status body =>
          if negb (ok status) then Null
          else match body with
               | Unparseable => Null
               | ParsedNull => Null
               | Parsed data_embedding => data_embedding
               end
      end.

(** async function callAnswerAPI(context, question) *)
Definition callAnswerAPI (context question : jsString)
  : IO (Nullable jsString) :=
  resp <- postAnswer context question ;;
  ret match resp with
      | Rejected => Value apology
      | Response status body =>
          if negb (ok status) then Value apology
          else match body with
               | Unparseable => Value apology
               | ParsedNull => Value apology
               | Parsed data_answer => data_answer
               end
      end.

(** function uuid() *)
Definition uuid : IO jsString :=
  fun w =>
    (randomUUID env (uuids w),
     {| requests := requests w; uuids := S (uuids w) |}).

(** async function extractPdf(file) *)
Definition extractPdf (file : File) : jsString * nat :=
  match file_pdf file with
  | None => ([], 0)
  | Some pdf =>
      (fold_left
         (fun fullText items => fullText ++ [10; 10]%N ++ join (lit " ") items)
         pdf [],
       length pdf)
  end.

(** The loop [for (let i = 0; i < text.length; i += size)] of
    [handleFileUpload]; [None] when [fuel] iterations do not end it. *)
Fixpoint chunkLoop (fuel size : nat) (text docId : jsString) (i : nat)
  (newChunks : list Chunk) : IO (option (list Chunk)) :=
  match fuel with
  | 0 => ret None
  | S fuel' =>
      if i <? length text then
        let chunkText := slice text i (i + size) in
        chunkId <- uuid ;;
        embed <- fetchEmbedding chunkText ;;
        chunkLoop fuel' size text docId (i + size)
          (newChunks ++ [mkChunk chunkId docId chunkText embed])
      else ret (Some newChunks)
  end.

(** The body of [for (const file of files)] in [handleFileUpload]. *)
Definition ingestFile (file : File) (st : AppState) : IO (option AppState) :=
  let (text, pages) := extractPdf file in
  docId <- uuid ;;
  let newDoc := mkDoc docId (file_name file) pages text in
  let size := 500 in
  loop <- chunkLoop (S (length text)) size text docId 0 [] ;;
  ret match loop with
      | None => None
      | Some newChunks =>
          Some {| docs := docs st ++ [newDoc];
                  index := index st ++ newChunks;
                  query := query st;
                  answer := answer st |}
      end.

(** async function handleFileUpload(event) *)
Fixpoint handleFileUpload (files : list File) (st : AppState)
  : IO (option AppState) :=
  match files with
  | [] => ret (Some st)
  | file :: files' =>
      ingested <- ingestFile file st ;;
      match ingested with
      | None => ret None
      | Some st' => handleFileUpload files' st'
      end
  end.

(** [ch.embedding || []] *)
Definition orEmpty (e : Nullable (list float)) : list float :=
  match e with
  | Value v => v
  | _ => []
  end.

(** The two scoring branches of [handleAsk]: an array, even an empty one, is
    truthy in [if (qEmbedding)]. *)
Definition scoreChunks (qEmbedding : Nullable (list float))
  (question : jsString) (index : list Chunk) : list Scored :=
  match qEmbedding with
  | Value q =>
      map (fun ch =>
             mkScored ch (Double (cosineSim q (orEmpty (embedding ch)))))
          index
  | _ =>
      let qTokens := tokenize (Value question) in
      map (fun ch =>
             let cTokens := tokenize (Value (text ch)) in
             let matches := length (filter (fun t => includes cTokens t) qTokens) in
             mkScored ch (Count matches))
          index
  end.

(** [(a, b) => b.score - a.score] *)
Definition byScore (a b : Scored) : comparison :=
  signOfDifference (score b) (score a).

(** Whether [b.score - a.score] is [NaN]. *)
Definition byScoreIsNaN (a b : Scored) : bool :=
  differenceIsNaN (score b) (score a).

(** [scored.sort(...)] and [scored.slice(0, 5)]. *)
Definition rank (scored : list Scored) : list Scored :=
  slice (arraySort byScore byScoreIsNaN sortOrder scored) 0 5.

(** [top.map(ch => ch.text).join('\n---\n')] *)
Definition assembleContext (top : list Scored) : jsString :=
  join separator (map (fun ch => text (chunk ch)) top).

(** async function handleAsk() *)
Definition handleAsk (st : AppState) : IO AppState :=
  let question := trim (query st) in
  if negb (nonEmpty question) then ret st
  else
    let st := setAnswer st None in
    qEmbedding <- fetchEmbedding question ;;
    let scored := scoreChunks qEmbedding question (index st) in
    let top := rank scored in
    let context := assembleContext top in
    answerText <- callAnswerAPI context question ;;
    ret (setAnswer st (Some (mkAnswer answerText top))).

End App.

(** ** uuid without crypto.randomUUID *)

(** [v.toString(16)] for an integer that is not negative. *)
Definition toString16 (v : N) : jsString :=
  match v with
  | N0 => lit "0"
  | Npos p => lit (HexString.Raw.of_pos p "")
  end.

Definition uuidTemplate : jsString :=
  lit "xxxxxxxx-xxxx-4xxx-yxxx-xxxxxxxxxxxx".

(** The callback of [replace] in [uuid]; [r] is the value of
    [(Math.random() * 16) | 0]. *)
Definition uuidDigit (c : codeUnit) (r : N) : jsString :=
  let v := if (c =? 120)%N then r else N.lor (N.land r 3) 8 in
  toString16 v.

(** [template.replace(/[xy]/g, c => ...)]: from left to right every [x]
    and every [y] is replaced by what the callback returns for it; the
    call number [k] draws [random16 k]. *)
Fixpoint replaceXY (random16 : nat -> N) (k : nat) (template : jsString)
  : jsString :=
  match template with
  | [] => []
  | c :: rest =>
      if ((c =? 120) || (c =? 121))%N
      then uuidDigit c (random16 k) ++ replaceXY random16 (S k) rest
      else c :: replaceXY random16 k rest
  end.

(** The second [return] of function uuid(). *)
Definition uuidFallback (random16 : nat -> N) (k : nat) : jsString :=
  replaceXY random16 k uuidTemplate.

(** ** Modes and the partner login *)

(** ['admin'] and ['partner'] *)
Inductive Mode : Type := Admin | Partner.

(** The React state of [App] that decides what is shown. *)
Record Session : Type := mkSession {
  mode : Mode;
  password : jsString;
  partnerLoggedIn : bool
}.

(** [useState('admin')], [useState('')], [useState(false)] *)
Definition initialSession : Session := mkSession Admin [] false.

(** function toggleMode() *)
Definition toggleMode (s : Session) : Session :=
  {| mode := match mode s with Admin => Partner | Partner => Admin end;
     password := password s;
     partnerLoggedIn :=
       match mode s with
       | Partner => false
       | Admin => partnerLoggedIn s
       end |}.

(** [onChange={e => setPassword(e.target.value)}] *)
Definition setPassword (s : Session) (value : jsString) : Session :=
  {| mode := mode s; password := value;
     partnerLoggedIn := partnerLoggedIn s |}.

(** function handlePartnerLogin(e) *)
Definition handlePartnerLogin (s : Session) : Session :=
  if negb (jsString_eqb (trim (password s)) [])
  then {| mode := mode s; password := password s; partnerLoggedIn := true |}
  else s.

(** [mode === 'partner' && !partnerLoggedIn]: the condition under which
    [App] renders the login form in place of the library and the question
    panel. *)
Definition showsLogin (s : Session) : bool :=
  match mode s with
  | Partner => negb (partnerLoggedIn s)
  | Admin => false
  end.

(** The file input and the download buttons of [renderLibrary] are
    rendered under [mode === 'admin'], inside the library. *)
Definition showsUpload (s : Session) : bool :=
  negb (showsLogin s)
  && match mode s with Admin => true | Partner => false end.

(** What the user can do to the session: the button of the header, and
    the field and the button of the login form. *)
Inductive Event : Type :=
| ClickToggle
| TypePassword (value : jsString)
| SubmitLogin.

(** The header is always rendered, the login form under [showsLogin]. *)
Definition offered (s : Session) (e : Event) : bool :=
  match e with
  | ClickToggle => true
  | TypePassword _ | SubmitLogin => showsLogin s
  end.

Definition react (s : Session) (e : Event) : Session :=
  match e with
  | ClickToggle => toggleMode s
  | TypePassword value => setPassword s value
  | SubmitLogin => handlePartnerLogin s
  end.

(** ** downloadDoc and the labels of the sources *)

(** The class [[^/.]] *)
Definition isExtensionUnit (c : codeUnit) : bool :=
  negb ((c =? 47) || (c =? 46))%N.

(** [name.replace(/\.[^/.]+$/, '')]: the match is looked for from the
    left; at a place it needs a dot and then, up to the end, one code unit
    or more of [[^/.]]. *)
Fixpoint stripExtension (name : jsString) : jsString :=
  match name with
  | [] => []
  | c :: rest =>
      if (c =? 46)%N && nonEmpty rest && forallb isExtensionUnit rest
      then []
      else c :: stripExtension rest
  end.

(** [a.download] in function downloadDoc(doc) *)
Definition downloadName (doc : Doc) : jsString :=
  stripExtension (name doc) ++ lit ".txt".

(** [docs.find(d => d.id === ch.docId)] *)
Definition findDoc (docs : list Doc) (ch : Chunk) : option Doc :=
  find (fun d => jsString_eqb (doc_id d) (docId ch)) docs.

(** The text of one item of the list of sources in [renderQA]. *)
Definition sourceLabel (docs : list Doc) (ch : Chunk) : jsString :=
  match findDoc docs ch with
  | Some doc => name doc
  | None => lit "Unknown document"
  end ++ [32; 8211; 32]%N ++ lit "chunk " ++ slice (id ch) 0 8.

(** ** The serverless functions (src/api/embed.js and the answer function) *)

(** What an [await] gives: a value, or an exception with its message
    (the empty message stands for no message as well). *)
Inductive Awaited (A : Type) : Type :=
| Throws (message : jsString)
| Resolves (a : A).
Arguments Throws {A}.

(** The response of the provider as a function reads it:
    [response.status], [response.text()], and of [response.json()] the
    value that the function takes out of it. *)
Record ProviderResponse (D : Type) : Type := mkProviderResponse {
  provider_status : nat;
  provider_text : Awaited jsString;
  provider_json : Awaited D
}.

(** [res.status(status).json({ error })] and
    [res.status(status).json({ embedding })] or [{ answer }]. *)
Inductive Payload (A : Type) : Type :=
| ErrorPayload (error : jsString)
| DataPayload (data : A).
Arguments ErrorPayload {A}.

Record Reply (A : Type) : Type := mkReply {
  reply_status : nat;
  reply_payload : Payload A
}.

(** [err.message || 'Unexpected error'] *)
Definition messageOf (message : jsString) : jsString :=
  if nonEmpty message then message else lit "Unexpected error".

(** [req.body.input]: absent (also when there is no body), a value that is
    not a string, or a string. *)
Inductive Field : Type :=
| Missing
| NotAString
| Text (s : jsString).

Record EmbedRequest : Type := mkEmbedRequest {
  embed_method : jsString;
  embed_input : Field
}.

(** The handler of src/api/embed.js.  [provider input] is what
    [fetch('https://api.openai.com/v1/embeddings', ...)] gives for the
    body [{ model: 'text-embedding-ada-002', input }]; the value read of
    its JSON is [data?.data?.[0]?.embedding].  The second component lists
    the inputs sent to the provider. *)
Definition embedHandler
  (provider : jsString -> Awaited (ProviderResponse (Nullable (list float))))
  (req : EmbedRequest) : Reply (list float) * list jsString :=
  if negb (jsString_eqb (embed_method req) (lit "POST"))
  then (mkReply 405 (ErrorPayload (lit "Method not allowed")), [])
  else
    match embed_input req with
    | Text (c :: s) =>
        let input := c :: s in
        (match provider input with
         | Throws message => mkReply 500 (ErrorPayload (messageOf message))
         | Resolves response =>
             if negb (ok (provider_status response)) then
               match provider_text response with
               | Throws message =>
                   mkReply 500 (ErrorPayload (messageOf message))
               | Resolves err =>
                   mkReply (provider_status response) (ErrorPayload err)
               end
             else
               match provider_json response with
               | Throws message =>
                   mkReply 500 (ErrorPayload (messageOf message))
               | Resolves data_embedding =>
                   mkReply 200 (DataPayload (orEmpty data_embedding))
               end
         end,
         [input])
    | _ => (mkReply 400 (ErrorPayload (lit "Missing input")), [])
    end.

(** [req.body.context] and [req.body.question], each absent, [null] or a
    string. *)
Record AnswerRequest : Type := mkAnswerRequest {
  answer_method : jsString;
  answer_context : Nullable jsString;
  answer_question : Nullable jsString
}.

(** The messages sent to the provider, with the model ['gpt-4o'] and the
    temperature [0.0]. *)
Record ChatRequest : Type := mkChatRequest {
  chat_system : jsString;
  chat_user : jsString
}.

(** The parsed body of the provider: [null], which has no [choices] to
    read, or a value of which [choices?.[0]?.message?.content] is read. *)
Inductive ChatData : Type :=
| ChatNull
| ChatContent (message_content : Nullable jsString).

Definition systemPrompt : jsString :=
  lit "You are a helpful AI assistant for a restaurant franchise. Use the provided context from the operations manual to answer the user"
  ++ [8217]%N
  ++ lit "s question. If the context does not contain the answer, say you do not know.".

(** A value in a template literal. *)
Definition interpolate (v : Nullable jsString) : jsString :=
  match v with
  | Undefined => lit "undefined"
  | Null => lit "null"
  | Value s => s
  end.

(** [content?.trim() || ''] *)
Definition trimmedOrEmpty (message_content : Nullable jsString) : jsString :=
  match message_content with
  | Value s => trim s
  | _ => []
  end.

Section Functions.

(** The message of the TypeError that the runtime throws when a property
    of [null] is read. *)
Variable typeErrorMessage : jsString.

(** The handler of the answer function. *)
Definition answerHandler
  (provider : ChatRequest -> Awaited (ProviderResponse ChatData))
  (req : AnswerRequest) : Reply jsString * list ChatRequest :=
  if negb (jsString_eqb (answer_method req) (lit "POST"))
  then (mkReply 405 (ErrorPayload (lit "Method not allowed")), [])
  else
    match answer_question req with
    | Value (c :: s) =>
        let messages :=
          mkChatRequest systemPrompt
            (interpolate (answer_context req) ++ [10; 10]%N
             ++ lit "Question: " ++ interpolate (answer_question req)) in
        (match provider messages with
         | Throws message => mkReply 500 (ErrorPayload (messageOf message))
         | Resolves response =>
             if negb (ok (provider_status response)) then
               match provider_text response with
               | Throws message =>
                   mkReply 500 (ErrorPayload (messageOf message))
               | Resolves errText =>
                   mkReply (provider_status response) (ErrorPayload errText)
               end
             else
               match provider_json response with
               | Throws message =>
                   mkReply 500 (ErrorPayload (messageOf message))
               | Resolves ChatNull =>
                   mkReply 500 (ErrorPayload (messageOf typeErrorMessage))
               | Resolves (ChatContent message_content) =>
                   mkReply 200 (DataPayload (trimmedOrEmpty message_content))
               end
         end,
         [messages])
    | _ => (mkReply 400 (ErrorPayload (lit "Missing question")), [])
    end.

End Functions.

(** ** The client in front of the functions *)

(** What [fetch] gives the client when a function has replied: the status
    and a JSON object, which has the property the client reads when the
    reply carries data and lacks it when the reply carries an error;
    [carried] is what the data is once written as JSON and read back. *)
Definition overHttp {A : Type} (carried : A -> A) (reply : Reply A)
  : FetchResult A :=
  Response (reply_status reply)
    (Parsed match reply_payload reply with
            | DataPayload a => Value (carried a)
            | ErrorPayload _ => Undefined
            end).

(** A number of a vector written by [JSON.stringify] and read back, as
    the arithmetic of [cosineSim] reads it: [-0] is written [0]; NaN and
    the infinities are written [null], which a product reads as [0];
    every other number is read back as it is. *)
Definition throughJson (x : float) : float :=
  if PrimFloat.is_finite x
  then if PrimFloat.is_zero x then 0%float else x
  else 0%float.

(** The environment of the deployed application: the two endpoints are the
    functions of the repository in front of the providers, called as
    [fetchEmbedding] and [callAnswerAPI] call them. *)
Definition deployed (typeErrorMessage : jsString)
  (embeddings : jsString -> Awaited (ProviderResponse (Nullable (list float))))
  (completions : ChatRequest -> Awaited (ProviderResponse ChatData))
  (randomUUID : nat -> jsString) : Env :=
  {| embedEndpoint := fun _ input =>
       overHttp (map throughJson)
         (fst (embedHandler embeddings
                 (mkEmbedRequest (lit "POST") (Text input))));
     answerEndpoint := fun _ context question =>
       overHttp (fun answer => answer)
         (fst (answerHandler typeErrorMessage completions
                 (mkAnswerRequest (lit "POST") (Value context)
                    (Value question))));
     randomUUID := randomUUID |}.

(** ** Definitions used to state the properties *)

(** What one pass of the chunking loop from offset [i] leaves in
    [newChunks]. *)
Definition chunksCover (size : nat) (rest : jsString)
  (texts : list jsString) : Prop :=
  concat texts = rest
  /\ length texts = (length rest + size - 1) / size
  /\ Forall (fun t => length t = size) (removelast texts)
  /\ Forall (fun t => 0 < length t <= size) texts.


(** A result of the rounding of IEEE 754 that is not zero and has the
    sign [sx]. *)
Definition signed (sx : bool) (r : spec_float) : Prop :=
  match r with
  | S754_finite s _ _ | S754_infinity s => s = sx
  | _ => False
  end.

(** Neither NaN nor an infinity. *)
Definition finiteSF (x : spec_float) : bool :=
  match x with
  | S754_zero _ | S754_finite _ _ _ => true
  | _ => false
  end.

(** The place on a line of a double that is not NaN: the sign class, then
    the exponent, then the mantissa. *)
Definition key (x : spec_float) : Z * Z * Z :=
  match x with
  | S754_zero _ | S754_nan => (0, 0, 0)
  | S754_infinity s => (if s then -2 else 2, 0, 0)
  | S754_finite s m e => if s then (-1, - e, Zneg m) else (1, e, Zpos m)
  end%Z.

Definition lexLt (a b : Z * Z * Z) : Prop :=
  let '(a1, a2, a3) := a in
  let '(b1, b2, b3) := b in
  (a1 < b1 \/ (a1 = b1 /\ (a2 < b2 \/ (a2 = b2 /\ a3 < b3))))%Z.

(** [a] does not come below [b] on the line. *)
Definition notBelow {A : Type} (place : A -> Z * Z * Z) (a b : A) : Prop :=
  ~ lexLt (place a) (place b).

(** The place of a number of one kind among the numbers of that kind. *)
Definition numberKey (v : Number) : Z * Z * Z :=
  match v with
  | Double x => key (Prim2SF x)
  | Count n => (0, 0, Z.of_nat n)%Z
  end.

(** Two scores of one ranking: both doubles and none NaN, or both counts. *)
Definition comparable (a b : Number) : Prop :=
  match a, b with
  | Double x, Double y =>
      PrimFloat.is_nan x = false /\ PrimFloat.is_nan y = false
  | Count _, Count _ => True
  | _, _ => False
  end.

(** Two scored chunks of equal score: the same number, or numbers that
    [===] holds equal ([0] and [-0]). *)
Definition sameScore (a b : Scored) : Prop :=
  score a = score b \/ numberEq (score a) (score b) = true.

(** Neither NaN nor an infinity. *)
Definition isFinite (v : Number) : bool :=
  match v with
  | Double x => PrimFloat.is_finite x
  | Count _ => true
  end.

(** The comparison [b.score - a.score] of two entries is never NaN. *)
Definition NeverNaN (scored : list Scored) : Prop :=
  forall a b, In a scored -> In b scored -> byScoreIsNaN a b = false.

(** Sorted in descending order of score. *)
Definition Descending (ranked : list Scored) : Prop :=
  StronglySorted (fun a b => numberLe (score b) (score a) = true) ranked.

(** The overlap score in the words of the specification: the number of
    query tokens, each occurrence counted, that occur at least once among
    the tokens of the chunk. *)
Inductive OverlapCount (chunkTokens : list jsString)
  : list jsString -> nat -> Prop :=
| Overlap_none : OverlapCount chunkTokens [] 0
| Overlap_hit : forall t queryTokens n,
    In t chunkTokens ->
    OverlapCount chunkTokens queryTokens n ->
    OverlapCount chunkTokens (t :: queryTokens) (S n)
| Overlap_miss : forall t queryTokens n,
    ~ In t chunkTokens ->
    OverlapCount chunkTokens queryTokens n ->
    OverlapCount chunkTokens (t :: queryTokens) n.

(** The failures of a provider: [fetch] rejects, the status is not a
    success, the body is not JSON, or the body is the JSON value [null],
    which has no property to read. *)
Inductive Fails {A : Type} : FetchResult A -> Prop :=
| Fails_network : Fails Rejected
| Fails_status : forall status body,
    ok status = false -> Fails (Response status body)
| Fails_malformed : forall status, Fails (Response status Unparseable)
| Fails_null : forall status, Fails (Response status ParsedNull).

(** The world after one more request. *)
Definition afterRequest (w : World) (r : Request) : World :=
  {| requests := requests w ++ [r]; uuids := uuids w |}.

(** The digits of [toString(16)]: [[0-9a-f]]. *)
Definition isHexUnit (c : codeUnit) : bool :=
  ((48 <=? c) && (c <=? 57) || (97 <=? c) && (c <=? 102))%N.

(** The digit of base 16, in lower case, of a value below 16. *)
Definition hexDigit (v : N) : codeUnit :=
  if (v <? 10)%N then (48 + v)%N else (87 + v)%N.

(** What a code unit of the template of [uuid] asks of the code unit in
    its place: a hexadecimal digit for [x], one of [8 9 a b] for [y], and
    itself otherwise. *)
Definition fits (t c : codeUnit) : Prop :=
  if (t =? 120)%N then isHexUnit c = true
  else if (t =? 121)%N then In c (lit "89ab")
  else c = t.

(** The sessions the user can bring about. *)
Inductive Reachable : Session -> Prop :=
| Reachable_start : Reachable initialSession
| Reachable_event : forall s e,
    Reachable s -> offered s e = true -> Reachable (react s e).

(** Every chunk of the index belongs to a document of the library. *)
Definition Resolved (st : AppState) : Prop :=
  forall ch, In ch (index st) ->
    exists doc, findDoc (docs st) ch = Some doc /\ doc_id doc = docId ch.

(** The provider fails a function: [fetch] throws, the status is not a
    success, or the body of a success is not JSON. *)
Inductive ProviderFails {D : Type} : Awaited (ProviderResponse D) -> Prop :=
| ProviderFails_network : forall message, ProviderFails (Throws message)
| ProviderFails_status : forall response,
    ok (provider_status response) = false ->
    ProviderFails (Resolves response)
| ProviderFails_malformed : forall response message,
    provider_json response = Throws message ->
    ProviderFails (Resolves response).

(** ** Data of the scenarios *)

(** Both providers answer. *)
Definition servingEnv : Env :=
  {| embedEndpoint := fun _ _ => Response 200 (Parsed (Value [1; 0]%float));
     answerEndpoint := fun _ _ _ => Response 200 (Parsed (Value (lit "Lock the door.")));
     randomUUID := fun n => [N.of_nat n] |}.

(** The embedding provider answers with status 500 and the generation
    provider with status 429. *)
Definition failingEnv : Env :=
  {| embedEndpoint := fun _ _ => Response 500 (Parsed Undefined);
     answerEndpoint := fun _ _ _ => Response 429 (Parsed Undefined);
     randomUUID := fun n => [N.of_nat n] |}.

(** The embedding provider answers with a huge vector. *)
Definition hugeEnv : Env :=
  {| embedEndpoint := fun _ _ => Response 200 (Parsed (Value [0x1p+600]%float));
     answerEndpoint := fun _ _ _ => Response 200 (Parsed (Value (lit "Lock the door.")));
     randomUUID := fun n => [N.of_nat n] |}.

(** The generation provider answers with status 200 and a JSON object
    that has no [answer] property. *)
Definition shapelessEnv : Env :=
  {| embedEndpoint := fun _ _ => Response 200 (Parsed (Value [1; 0]%float));
     answerEndpoint := fun _ _ _ => Response 200 (Parsed Undefined);
     randomUUID := fun n => [N.of_nat n] |}.

(** An engine that leaves an array as it is when the comparison function
    is not consistent for it. *)
Definition unsorted : list Scored -> list nat := fun _ => [].


Definition emptyWorld : World := {| requests := []; uuids := 0 |}.

Definition unrelatedChunk : Chunk :=
  mkChunk (lit "c1") (lit "d1") (lit "Totally unrelated text")
    (Value [0; 1]%float).

Definition closingChunk : Chunk :=
  mkChunk (lit "c2") (lit "d1") (lit "closing procedure for the store")
    (Value [1; 0]%float).

Definition hoursChunk : Chunk :=
  mkChunk (lit "c3") (lit "d1") (lit "Opening hours") Null.

Definition storeChunks : list Chunk :=
  [unrelatedChunk; closingChunk; hoursChunk].

Definition storeState : AppState :=
  {| docs := []; index := storeChunks;
     query := lit " How do I close the store? "; answer := None |}.

Definition hugeState : AppState :=
  {| docs := [];
     index := [ mkChunk (lit "c1") (lit "d1") (lit "first") (Value [0x1p+600]%float);
                mkChunk (lit "c2") (lit "d1") (lit "second") Null ];
     query := lit "close"; answer := None |}.

Definition blankState : AppState :=
  {| docs := []; index := storeChunks; query := [32; 9; 10; 160]%N;
     answer := Some (mkAnswer (Value (lit "earlier answer")) []) |}.


(** A session in which the partner logged in and the user then switched
    back to admin mode. *)
Definition returnedSession : Session :=
  react
    (react
       (react (react initialSession ClickToggle) (TypePassword (lit "caps")))
       SubmitLogin)
    ClickToggle.

(** A PDF of two pages, the second without text. *)
Definition manualFile : File :=
  mkFile (lit "manual.pdf") (Some [[lit "Lock the"; lit "door."]; []]).

Definition emptyState : AppState :=
  {| docs := []; index := []; query := lit "How do I close?";
     answer := None |}.

(** The deployed application with providers that answer: an embedding for
    every text, and a completion with white space around it. *)
Definition answeringEnv : Env :=
  deployed (lit "Cannot read properties of null")
    (fun _ => Resolves (mkProviderResponse 200 (Resolves [])
                          (Resolves (Value [1; 0]%float))))
    (fun _ => Resolves (mkProviderResponse 200 (Resolves [])
                          (Resolves (ChatContent
                                       (Value (lit " Lock the door. "))))))
    (fun n => [N.of_nat n]).

(** * Properties *)

(** ** The tokenizer *)

Lemma splitLoop_run (s : jsString) :
  filter nonEmpty (splitLoop [] true s) = filter nonEmpty (split s).
Proof.
  unfold split. destruct s as [|c s]; simpl; [reflexivity|].
  destruct (isTokenUnit c); reflexivity.
Qed.

Lemma splitLoop_token (t : jsString) :
  Forall (fun c => isTokenUnit c = true) t ->
  forall piece s,
    splitLoop piece false (t ++ s) = splitLoop (piece ++ t) false s.
Proof.
  induction 1 as [|c t Hc _ IH]; intros piece s; simpl.
  - now rewrite app_nil_r.
  - rewrite Hc, IH, <- app_assoc. reflexivity.
Qed.

Lemma splitLoop_separators (d : jsString) :
  isSeparatorRun d ->
  forall s, filter nonEmpty (split (d ++ s)) = filter nonEmpty (split s).
Proof.
  induction 1 as [|c d Hc _ IH]; intros s; [reflexivity|].
  unfold split. simpl. rewrite Hc. simpl.
  rewrite splitLoop_run. apply IH.
Qed.

Lemma splitLoop_ends (t rest : jsString) :
  isToken t -> endsToken rest ->
  filter nonEmpty (splitLoop t false rest)
  = t :: filter nonEmpty (split rest).
Proof.
  intros [Hne _] Hrest. destruct rest as [|c rest]; simpl in *.
  - destruct t; [contradiction|reflexivity].
  - rewrite Hrest. simpl. rewrite splitLoop_run.
    change (c :: rest) with ([c] ++ rest).
    rewrite (splitLoop_separators (d:=[c])) by now constructor.
    destruct t; [contradiction|reflexivity].
Qed.

(** The tokens of a string are unique, and [split] followed by
    [filter(Boolean)] computes them. *)
Lemma Tokens_split (s : jsString) (toks : list jsString) :
  Tokens s toks -> filter nonEmpty (split s) = toks.
Proof.
  induction 1 as [d Hd|d t rest toks Hd Ht Hrest _ IH].
  - rewrite <- (app_nil_r d), splitLoop_separators by assumption.
    reflexivity.
  - rewrite splitLoop_separators by assumption.
    unfold split. rewrite splitLoop_token by apply Ht. simpl.
    rewrite splitLoop_ends, IH by assumption. reflexivity.
Qed.

Lemma nonEmpty_true (s : jsString) : nonEmpty s = true <-> s <> [].
Proof.
  destruct s; simpl; split; congruence.
Qed.

Lemma nonEmpty_false (s : jsString) : nonEmpty s = false <-> s = [].
Proof.
  destruct s; simpl; split; congruence.
Qed.

Lemma split_Tokens_from (s : jsString) :
  forall d piece,
    isSeparatorRun d ->
    Forall (fun c => isTokenUnit c = true) piece ->
    Tokens (d ++ piece ++ s) (filter nonEmpty (splitLoop piece false s)).
Proof.
  induction s as [|c s IH]; intros d piece Hd Hp; simpl.
  - destruct (nonEmpty piece) eqn:E.
    + apply nonEmpty_true in E.
      apply Tokens_next; repeat split; try assumption.
      constructor. constructor.
    + apply nonEmpty_false in E. subst piece.
      rewrite app_nil_r. now constructor.
  - destruct (isTokenUnit c) eqn:Hc.
    + replace (d ++ piece ++ c :: s) with (d ++ (piece ++ [c]) ++ s)
        by (rewrite <- (app_assoc piece); reflexivity).
      apply IH; [assumption|].
      apply Forall_app; split; [assumption|now constructor].
    + simpl. rewrite splitLoop_run.
      destruct (nonEmpty piece) eqn:E.
      * apply nonEmpty_true in E.
        apply Tokens_next; repeat split; try assumption.
        apply (IH [c] []); [now constructor|constructor].
      * apply nonEmpty_false in E. subst piece.
        replace (d ++ [] ++ c :: s) with ((d ++ [c]) ++ [] ++ s)
          by (rewrite <- app_assoc; reflexivity).
        apply IH; [|constructor].
        apply Forall_app; split; [assumption|now constructor].
Qed.

Lemma split_Tokens (s : jsString) :
  Tokens s (filter nonEmpty (split s)).
Proof.
  apply (split_Tokens_from s (d:=[]) (piece:=[])); constructor.
Qed.

Lemma Tokens_isToken (s : jsString) (toks : list jsString) :
  Tokens s toks -> Forall isToken toks.
Proof.
  induction 1; constructor; assumption.
Qed.

Lemma Tokens_separator (c : codeUnit) (s : jsString) (toks : list jsString) :
  isTokenUnit c = false -> Tokens s toks -> Tokens (c :: s) toks.
Proof.
  intros Hc H. destruct H as [d Hd|d t rest toks Hd Ht Hrest Hrec].
  - constructor. now constructor.
  - change (c :: d ++ t ++ rest) with ((c :: d) ++ t ++ rest).
    apply Tokens_next; try assumption. now constructor.
Qed.

(** Tokens joined by single spaces are read back as they are. *)
Lemma Tokens_join (toks : list jsString) :
  Forall isToken toks -> Tokens (join [32%N] toks) toks.
Proof.
  induction 1 as [|t toks Ht Htoks IH].
  - constructor. constructor.
  - destruct toks as [|t' toks'].
    + simpl. replace t with ([] ++ t ++ []) at 1 by apply app_nil_r.
      apply Tokens_next; [constructor|assumption|exact I|assumption].
    + change (join [32%N] (t :: t' :: toks'))
        with ([] ++ t ++ 32%N :: join [32%N] (t' :: toks')).
      apply Tokens_next; [constructor|assumption|reflexivity|].
      now apply Tokens_separator.
Qed.

Lemma join_token_text (toks : list jsString) :
  Forall isToken toks ->
  Forall (fun c => isTokenUnit c = true \/ c = 32%N) (join [32%N] toks).
Proof.
  induction 1 as [|t toks [_ Ht] _ IH]; [constructor|].
  assert (Forall (fun c => isTokenUnit c = true \/ c = 32%N) t) as Ht'
    by (eapply Forall_impl; [|exact Ht]; simpl; auto).
  destruct toks as [|t' toks']; [exact Ht'|].
  change (join [32%N] (t :: t' :: toks'))
    with (t ++ 32%N :: join [32%N] (t' :: toks')).
  apply Forall_app; split; [exact Ht'|].
  constructor; [now right|exact IH].
Qed.

Lemma asciiLowerCase_keeps : keepsTokenText asciiLowerCase.
Proof.
  intros u. induction 1 as [|c u Hc _ IH]; [reflexivity|].
  simpl. rewrite IH. f_equal. unfold lowerUnit.
  destruct ((65 <=? c)%N && (c <=? 90)%N) eqn:E; [|reflexivity].
  apply andb_prop in E. destruct E as [E1 E2].
  apply N.leb_le in E1, E2. exfalso. destruct Hc as [Hc|Hc].
  - unfold isTokenUnit in Hc. apply orb_prop in Hc.
    destruct Hc as [Hc|Hc]; apply andb_prop in Hc; destruct Hc as [H1 H2];
      apply N.leb_le in H1, H2; lia.
  - lia.
Qed.

Section TokenizerProperties.

Variable toLowerCase : jsString -> jsString.

Lemma tokenize_split (s : jsString) :
  s <> [] ->
  tokenize toLowerCase (Value s) = filter nonEmpty (split (toLowerCase s)).
Proof.
  destruct s; [contradiction|reflexivity].
Qed.

Lemma tokenize_isToken (str : Nullable jsString) :
  Forall isToken (tokenize toLowerCase str).
Proof.
  destruct str as [| |[|c s]]; try constructor.
  apply Tokens_isToken with (s := toLowerCase (c :: s)).
  apply split_Tokens.
Qed.

(** C9: [tokenize] yields no token for an undefined, null or empty input;
    otherwise its result is the sequence of tokens of the lower-cased
    input, the maximal non-empty runs of [[a-z0-9]] between the runs of
    other code units; and, as lower-casing keeps text that is already
    made of [[a-z0-9]] and spaces, tokenizing the tokens joined by a space
    gives the same tokens again. *)
Theorem tokenize_tokens_idempotent (s : jsString) :
  keepsTokenText toLowerCase ->
  tokenize toLowerCase Undefined = []
  /\ tokenize toLowerCase Null = []
  /\ tokenize toLowerCase (Value []) = []
  /\ Forall isToken (tokenize toLowerCase (Value s))
  /\ (s <> [] -> Tokens (toLowerCase s) (tokenize toLowerCase (Value s)))
  /\ tokenize toLowerCase
       (Value (join (lit " ") (tokenize toLowerCase (Value s))))
     = tokenize toLowerCase (Value s).
Proof.
  intros Hlower. repeat split.
  - apply tokenize_isToken.
  - intros Hs. rewrite tokenize_split by assumption. apply split_Tokens.
  - change (lit " ") with [32%N].
    pose proof (tokenize_isToken (Value s)) as Htoks.
    remember (tokenize toLowerCase (Value s)) as toks eqn:E. clear E.
    destruct toks as [|t toks]; [reflexivity|].
    rewrite tokenize_split.
    + rewrite Hlower by now apply join_token_text.
      apply Tokens_split. now apply Tokens_join.
    + inversion Htoks as [|? ? [Ht _] _]; subst.
      destruct t; [contradiction|]. destruct toks; discriminate.
Qed.

End TokenizerProperties.

(** ** Chunking *)

Lemma slice_window {A : Type} (xs : list A) (i size : nat) :
  slice xs i (i + size) = firstn size (skipn i xs).
Proof.
  unfold slice.
  destruct (Nat.le_gt_cases (length xs) i) as [Hi|Hi].
  - rewrite (Nat.min_r i) by assumption.
    rewrite skipn_all, (skipn_all2 xs) by assumption.
    now rewrite !firstn_nil.
  - rewrite (Nat.min_l i) by lia.
    rewrite <- (firstn_all (skipn i xs)) at 2.
    rewrite firstn_firstn, length_skipn. f_equal. lia.
Qed.

Lemma removelast_map {A B : Type} (f : A -> B) (xs : list A) :
  removelast (map f xs) = map f (removelast xs).
Proof.
  induction xs as [|x xs IH]; [reflexivity|].
  destruct xs as [|y ys]; [reflexivity|].
  cbn [map removelast] in *. now rewrite IH.
Qed.

Lemma ceil_step (n size : nat) :
  0 < size -> 0 < n ->
  (n + size - 1) / size = S ((n - size + size - 1) / size).
Proof.
  intros Hsize Hn.
  destruct (Nat.le_gt_cases n size) as [Hle|Hgt].
  - replace (n - size) with 0 by lia.
    rewrite (Nat.div_small (0 + size - 1)) by lia.
    symmetry. apply Nat.div_unique with (r := n - 1); lia.
  - replace (n + size - 1) with ((n - size + size - 1) + 1 * size) by lia.
    rewrite Nat.div_add by lia. lia.
Qed.

Section Chunking.

Variable env : Env.

Lemma chunkLoop_covers (size : nat) (txt docId : jsString) :
  0 < size ->
  forall fuel i newChunks w,
    length txt - i + size <= fuel * size ->
    exists chunks w',
      chunkLoop env fuel size txt docId i newChunks w
      = (Some (newChunks ++ chunks), w')
      /\ chunksCover size (skipn i txt) (map text chunks).
Proof.
  intros Hsize.
  induction fuel as [|fuel IH]; intros i newChunks w Hfuel; [simpl in Hfuel; lia|].
  cbn [chunkLoop].
  destruct (i <? length txt) eqn:Hi.
  - apply Nat.ltb_lt in Hi.
    unfold bind at 1. destruct (uuid env w) as [chunkId w1].
    unfold bind at 1.
    destruct (fetchEmbedding env (slice txt i (i + size)) w1) as [embed w2].
    destruct (IH (i + size)
                 (newChunks ++ [mkChunk chunkId docId (slice txt i (i + size)) embed])
                 w2) as (chunks & w' & Hrun & Hcat & Hlen & Hfull & Hbound);
      [destruct fuel; simpl in Hfuel |- *; lia|].
    exists (mkChunk chunkId docId (slice txt i (i + size)) embed :: chunks), w'.
    split; [rewrite Hrun, <- app_assoc; reflexivity|].
    assert (length (skipn i txt) = length txt - i) as Hrest
      by apply length_skipn.
    assert (skipn (i + size) txt = skipn size (skipn i txt)) as Hskip
      by (rewrite skipn_skipn; f_equal; lia).
    cbn [map text]. rewrite slice_window.
    unfold chunksCover. repeat split.
    + cbn [concat]. rewrite Hcat, Hskip. apply firstn_skipn.
    + cbn [length]. rewrite Hlen, Hskip, length_skipn.
      symmetry. apply ceil_step; lia.
    + destruct (map text chunks) as [|t ts] eqn:E; [constructor|].
      change (removelast (?x :: t :: ts)) with (x :: removelast (t :: ts)).
      constructor; [|exact Hfull].
      rewrite length_firstn. apply Nat.min_l.
      inversion Hbound as [|? ? Ht _]; subst.
      assert (length (concat (t :: ts)) <> 0) as Hne
        by (cbn [concat]; rewrite length_app; lia).
      rewrite Hcat, Hskip, length_skipn in Hne. lia.
    + constructor; [|exact Hbound].
      rewrite length_firstn. lia.
  - apply Nat.ltb_ge in Hi.
    exists [], w. split; [now rewrite app_nil_r|].
    rewrite skipn_all2 by assumption.
    unfold chunksCover. cbn. rewrite Nat.div_small by lia.
    repeat split; constructor.
Qed.

(** C1: on every document text the chunking loop of [handleFileUpload]
    ends, and the texts of the chunks it leaves, in order, concatenate to
    the document text, are [ceil (length / 500)] many, have length 500
    except possibly the last, and are none for the empty text. *)
Theorem chunking_covers_text (txt docId : jsString) (w : World) :
  exists chunks w',
    chunkLoop env (S (length txt)) 500 txt docId 0 [] w = (Some chunks, w')
    /\ concat (map text chunks) = txt
    /\ length chunks = (length txt + 499) / 500
    /\ Forall (fun ch => length (text ch) = 500) (removelast chunks)
    /\ Forall (fun ch => 0 < length (text ch) <= 500) chunks
    /\ (txt = [] -> chunks = []).
Proof.
  destruct (@chunkLoop_covers 500 txt docId ltac:(lia) (S (length txt)) 0 [] w ltac:(lia))
    as (chunks & w' & Hrun & Hcat & Hlen & Hfull & Hbound).
  exists chunks, w'. cbn [skipn app] in *.
  rewrite length_map in Hlen.
  replace (length txt + 500 - 1) with (length txt + 499) in Hlen by lia.
  repeat split.
  - exact Hrun.
  - exact Hcat.
  - exact Hlen.
  - rewrite removelast_map in Hfull.
    now apply Forall_map in Hfull.
  - now apply Forall_map in Hbound.
  - intros ->. destruct chunks; [reflexivity|].
    cbn [length] in Hlen. discriminate Hlen.
Qed.

Lemma ingestFile_ends (file : File) (st : AppState) (w : World) :
  exists st' w', ingestFile env file st w = (Some st', w').
Proof.
  unfold ingestFile. destruct (extractPdf file) as [txt pages].
  unfold bind at 1. destruct (uuid env w) as [docId w1].
  destruct (@chunkLoop_covers 500 txt docId ltac:(lia) (S (length txt)) 0 []
              w1 ltac:(lia)) as (chunks & w' & Hrun & _).
  unfold bind at 1. rewrite Hrun. cbn [ret]. now eexists _, w'.
Qed.

Lemma handleFileUpload_ends (files : list File) :
  forall st w, exists st' w',
    handleFileUpload env files st w = (Some st', w').
Proof.
  induction files as [|file files IH]; intros st w; cbn [handleFileUpload].
  - now exists st, w.
  - destruct (ingestFile_ends file st w) as (st1 & w1 & Hrun).
    unfold bind. rewrite Hrun. apply IH.
Qed.

(** X4: the body of the upload loop ends and appends to the index the
    chunks of the extracted text, in slice order, each of at most 500 code
    units; it leaves the question and the answer as they are. *)
Lemma ingestFile_appends (file : File) (st : AppState) (w : World) :
  exists st' w' newChunks,
    ingestFile env file st w = (Some st', w')
    /\ index st' = index st ++ newChunks
    /\ concat (map text newChunks) = fst (extractPdf file)
    /\ Forall (fun ch => length (text ch) <= 500) newChunks
    /\ query st' = query st /\ answer st' = answer st.
Proof.
  unfold ingestFile. destruct (extractPdf file) as [txt pages].
  unfold bind at 1. destruct (uuid env w) as [docId w1].
  destruct (@chunkLoop_covers 500 txt docId ltac:(lia) (S (length txt)) 0 []
              w1 ltac:(lia))
    as (chunks & w' & Hrun & Hcat & _ & _ & Hbound).
  unfold bind at 1. cbn [app] in Hrun. rewrite Hrun. cbn [ret].
  eexists _, w', chunks. repeat split; try reflexivity; try assumption.
  apply Forall_map in Hbound.
  eapply Forall_impl; [|exact Hbound]. cbn. intros ch H. apply H.
Qed.

End Chunking.

(** ** The order of doubles *)

Section DoubleOrder.

Local Open Scope Z_scope.

Lemma digits2_pos_bounds (m : positive) :
  2 ^ (Zpos (digits2_pos m) - 1) <= Zpos m < 2 ^ Zpos (digits2_pos m).
Proof.
  induction m as [p IH|p IH|]; cbn [digits2_pos].
  - rewrite Pos2Z.inj_succ, Z.pow_succ_r by lia.
    replace (Z.succ (Zpos (digits2_pos p)) - 1) with (Z.succ (Zpos (digits2_pos p) - 1)) by lia.
    rewrite Z.pow_succ_r by lia. lia.
  - rewrite Pos2Z.inj_succ, Z.pow_succ_r by lia.
    replace (Z.succ (Zpos (digits2_pos p)) - 1) with (Z.succ (Zpos (digits2_pos p) - 1)) by lia.
    rewrite Z.pow_succ_r by lia. lia.
  - cbn. lia.
Qed.

Lemma iter_xO (d m : positive) : Zpos (Pos.iter xO m d) = Zpos m * 2 ^ Zpos d.
Proof.
  induction d as [|d IH] using Pos.peano_ind.
  - cbn. lia.
  - rewrite Pos.iter_succ, Pos2Z.inj_succ, Z.pow_succ_r by lia.
    rewrite Pos2Z.inj_xO, IH. lia.
Qed.

Lemma shr_1_m (mrs : shr_record) :
  0 <= shr_m mrs -> shr_m (shr_1 mrs) = shr_m mrs / 2.
Proof.
  destruct mrs as [m r s]. cbn [shr_m]. intros Hm.
  destruct m as [|[p|p|]|p]; cbn [shr_1 shr_m]; try lia; try reflexivity.
  - apply Z.div_unique with (r := 1); lia.
  - apply Z.div_unique with (r := 0); lia.
Qed.

Lemma pow2_xO (n : positive) : 2 ^ Zpos n~0 = 2 ^ Zpos n * 2 ^ Zpos n.
Proof.
  replace (Zpos n~0) with (Zpos n + Zpos n) by lia.
  apply Z.pow_add_r; lia.
Qed.

Lemma pow2_xI (n : positive) : 2 ^ Zpos n~1 = 2 * (2 ^ Zpos n * 2 ^ Zpos n).
Proof.
  replace (Zpos n~1) with (Z.succ (Zpos n~0)) by lia.
  rewrite Z.pow_succ_r, pow2_xO by lia. reflexivity.
Qed.

Lemma iter_shr_1_m (n : positive) :
  forall mrs, 0 <= shr_m mrs ->
    shr_m (iter_pos shr_1 n mrs) = shr_m mrs / 2 ^ Zpos n.
Proof.
  assert (Hpow : forall k, 0 < 2 ^ Zpos k) by (intros; apply Z.pow_pos_nonneg; lia).
  induction n as [n IH|n IH|]; intros mrs Hm; cbn [iter_pos].
  - pose proof (Hpow n).
    assert (0 <= shr_m (shr_1 mrs))
      by (rewrite shr_1_m by assumption; apply Z.div_pos; lia).
    assert (0 <= shr_m (iter_pos shr_1 n (shr_1 mrs)))
      by (rewrite IH by assumption; apply Z.div_pos; lia).
    rewrite IH, IH, shr_1_m by assumption.
    rewrite !Z.div_div, pow2_xI by lia. reflexivity.
  - pose proof (Hpow n).
    assert (0 <= shr_m (iter_pos shr_1 n mrs))
      by (rewrite IH by assumption; apply Z.div_pos; lia).
    rewrite IH, IH by assumption.
    rewrite !Z.div_div, pow2_xO by lia. reflexivity.
  - rewrite shr_1_m by assumption. now rewrite Z.pow_1_r.
Qed.

Section Rounding.
Variables prec emax : Z.
Hypothesis prec_pos : 0 < prec.

Local Abbreviation eMin := (SpecFloat.emin prec emax).
Local Abbreviation fExp := (SpecFloat.fexp prec emax).

Lemma shr_m_of_loc (m : Z) (l : location) : shr_m (shr_record_of_loc m l) = m.
Proof. destruct l as [|[]]; reflexivity. Qed.

Lemma shr_fexp_pos (m : positive) (e : Z) (l : location) :
  eMin <= e ->
  0 < shr_m (fst (shr_fexp prec emax (Zpos m) e l))
  /\ eMin <= snd (shr_fexp prec emax (Zpos m) e l).
Proof.
  intros He. unfold shr_fexp, shr. cbn [Zdigits2].
  pose proof (digits2_pos_bounds m) as [Hlo _].
  destruct (fExp (Zpos (digits2_pos m) + e) - e) as [|p|p] eqn:En;
    cbn [fst snd]; rewrite ?shr_m_of_loc; try lia.
  assert (Zpos p <= Zpos (digits2_pos m) - 1) as Hp
    by (unfold SpecFloat.fexp in En; lia).
  rewrite iter_shr_1_m by (rewrite shr_m_of_loc; lia).
  rewrite shr_m_of_loc. split; [|lia].
  apply Z.div_str_pos. split; [apply Z.pow_pos_nonneg; lia|].
  apply Z.le_trans with (2 := Hlo).
  apply Z.pow_le_mono_r; lia.
Qed.

Lemma round_nearest_even_pos (m : Z) (l : location) :
  0 < m -> 0 < round_nearest_even m l.
Proof.
  intros Hm. destruct l as [|[]]; cbn [round_nearest_even];
    try destruct (Z.even m); lia.
Qed.

Lemma binary_round_aux_signed (sx : bool) (m : positive) (e : Z) (l : location) :
  eMin <= e -> signed sx (binary_round_aux prec emax sx (Zpos m) e l).
Proof.
  intros He. unfold binary_round_aux.
  pose proof (@shr_fexp_pos m e l He) as [Hm1 He1].
  destruct (shr_fexp prec emax (Zpos m) e l) as [mrs' e'].
  cbn [fst snd] in Hm1, He1.
  pose proof (@round_nearest_even_pos _ (loc_of_shr_record mrs') Hm1) as Hm2.
  destruct (round_nearest_even (shr_m mrs') (loc_of_shr_record mrs'))
    as [|m2|m2]; try lia.
  pose proof (@shr_fexp_pos m2 e' loc_Exact He1) as [Hm3 _].
  destruct (shr_fexp prec emax (Zpos m2) e' loc_Exact) as [mrs'' e''].
  cbn [fst] in Hm3.
  destruct (shr_m mrs''); try lia.
  destruct (e'' <=? emax - prec); reflexivity.
Qed.

Lemma binary_round_signed (sx : bool) (m : positive) (e : Z) :
  eMin <= e -> signed sx (binary_round prec emax sx m e).
Proof.
  intros He. unfold binary_round, shl_align.
  destruct (fExp (Zpos (digits2_pos m) + e) - e) eqn:En;
    apply binary_round_aux_signed; try assumption.
  unfold SpecFloat.fexp. lia.
Qed.

Lemma canonical_bounds (m : positive) (e : Z) :
  canonical_mantissa prec emax m e = true ->
  eMin <= e /\ Zpos (digits2_pos m) <= prec
  /\ (eMin < e -> Zpos (digits2_pos m) = prec).
Proof.
  unfold canonical_mantissa, SpecFloat.fexp. intros H.
  apply Z.eqb_eq in H. lia.
Qed.

Lemma shl_align_value (m : positive) (e e' : Z) :
  e' <= e ->
  Zpos (fst (shl_align m e e')) = Zpos m * 2 ^ (e - e').
Proof.
  intros He. unfold shl_align.
  destruct (e' - e) as [|d|d] eqn:Ed; cbn [fst]; try lia.
  - replace (e - e') with 0 by lia. lia.
  - rewrite iter_xO. f_equal. f_equal. lia.
Qed.

(** The order of two canonical finite numbers is the order of their
    mantissas once aligned on the smaller exponent. *)
Lemma SFcompare_aligned (s1 s2 : bool) (m1 m2 : positive) (e1 e2 : Z) :
  canonical_mantissa prec emax m1 e1 = true ->
  canonical_mantissa prec emax m2 e2 = true ->
  let ez := Z.min e1 e2 in
  SFcompare (S754_finite s1 m1 e1) (S754_finite s2 m2 e2)
  = Some (Z.compare (cond_Zopp s1 (Zpos (fst (shl_align m1 e1 ez))))
                    (cond_Zopp s2 (Zpos (fst (shl_align m2 e2 ez))))).
Proof.
  intros H1 H2 ez.
  apply canonical_bounds in H1, H2.
  destruct H1 as (Hmin1 & Hd1 & Hn1), H2 as (Hmin2 & Hd2 & Hn2).
  pose proof (digits2_pos_bounds m1) as [Hlo1 Hhi1].
  pose proof (digits2_pos_bounds m2) as [Hlo2 Hhi2].
  rewrite !shl_align_value by (unfold ez; lia).
  assert (Hp : 2 ^ prec = 2 * 2 ^ (prec - 1))
    by (rewrite <- Z.pow_succ_r by lia; f_equal; lia).
  assert (Hmono1 : 2 ^ Zpos (digits2_pos m1) <= 2 ^ prec)
    by (apply Z.pow_le_mono_r; lia).
  assert (Hmono2 : 2 ^ Zpos (digits2_pos m2) <= 2 ^ prec)
    by (apply Z.pow_le_mono_r; lia).
  cbn [SFcompare]. f_equal.
  destruct (Z.compare_spec e1 e2) as [He|He|He].
  - subst e2. unfold ez. rewrite Z.min_id, Z.sub_diag, Z.pow_0_r, !Z.mul_1_r.
    change (Pos.compare_cont Eq m1 m2) with (Zpos m1 ?= Zpos m2).
    destruct s1, s2; reflexivity.
  - assert (2 <= 2 ^ (e2 - ez)) as Hshift.
    { change 2 with (2 ^ 1) at 1. apply Z.pow_le_mono_r; unfold ez; lia. }
    replace (e1 - ez) with 0 by (unfold ez; lia).
    rewrite Z.pow_0_r, Z.mul_1_r.
    rewrite Hn2 in Hlo2 by lia.
    assert (Zpos m1 < Zpos m2 * 2 ^ (e2 - ez)) as Hlt by nia.
    destruct s1, s2; cbn [cond_Zopp]; symmetry;
      first [apply Z.compare_lt_iff | apply Z.compare_gt_iff]; lia.
  - assert (2 <= 2 ^ (e1 - ez)) as Hshift.
    { change 2 with (2 ^ 1) at 1. apply Z.pow_le_mono_r; unfold ez; lia. }
    replace (e2 - ez) with 0 by (unfold ez; lia).
    rewrite Z.pow_0_r, Z.mul_1_r.
    rewrite Hn1 in Hlo1 by lia.
    assert (Zpos m2 < Zpos m1 * 2 ^ (e1 - ez)) as Hlt by nia.
    destruct s1, s2; cbn [cond_Zopp]; symmetry;
      first [apply Z.compare_lt_iff | apply Z.compare_gt_iff]; lia.
Qed.


Ltac order_cases :=
  cbn [SFcompare key]; unfold lexLt;
  try change (Pos.compare_cont Eq ?m ?n) with (Zpos m ?= Zpos n);
  repeat match goal with
         | |- context [Z.compare ?a ?b] => destruct (Z.compare_spec a b)
         end;
  cbn [CompOpp]; split; intros; try reflexivity; try discriminate; lia.

Lemma SFltb_key (x y : spec_float) :
  x <> S754_nan -> y <> S754_nan ->
  SFltb x y = true <-> lexLt (key x) (key y).
Proof.
  intros Hx Hy. unfold SFltb.
  destruct x as [sx|sx| |sx mx ex]; try contradiction;
  destruct y as [sy|sy| |sy my ey]; try contradiction;
    try (destruct sx); try (destruct sy); order_cases.
Qed.

Lemma SFleb_key (x y : spec_float) :
  x <> S754_nan -> y <> S754_nan ->
  SFleb x y = true <-> ~ lexLt (key y) (key x).
Proof.
  intros Hx Hy. unfold SFleb.
  destruct x as [sx|sx| |sx mx ex]; try contradiction;
  destruct y as [sy|sy| |sy my ey]; try contradiction;
    try (destruct sx); try (destruct sy); order_cases.
Qed.

Lemma SFeqb_key (x y : spec_float) :
  SFeqb x y = true -> ~ lexLt (key x) (key y).
Proof.
  unfold SFeqb.
  destruct x as [sx|sx| |sx mx ex]; destruct y as [sy|sy| |sy my ey];
    try (destruct sx); try (destruct sy);
    cbn [SFcompare key]; unfold lexLt; try discriminate; try lia;
    try change (Pos.compare_cont Eq mx my) with (Zpos mx ?= Zpos my);
    destruct (Z.compare_spec ex ey);
    try destruct (Z.compare_spec (Zpos mx) (Zpos my));
    cbn [CompOpp]; try discriminate; lia.
Qed.

Lemma lexLt_asym (a b : Z * Z * Z) : lexLt a b -> ~ lexLt b a.
Proof.
  destruct a as [[a1 a2] a3], b as [[b1 b2] b3]. unfold lexLt. lia.
Qed.

Lemma lexLt_negtrans (a b c : Z * Z * Z) :
  ~ lexLt a b -> ~ lexLt b c -> ~ lexLt a c.
Proof.
  destruct a as [[a1 a2] a3], b as [[b1 b2] b3], c as [[c1 c2] c3].
  unfold lexLt. lia.
Qed.

Lemma binary_normalize_sign (D e : Z) :
  eMin <= e ->
  SFltb (S754_zero false) (binary_normalize prec emax D e false) = (0 <? D).
Proof.
  intros He. destruct D as [|d|d]; cbn [binary_normalize]; [reflexivity| |].
  - pose proof (@binary_round_signed false d e He) as Hs.
    destruct (binary_round prec emax false d e); try contradiction;
      cbn [signed] in Hs; subst; reflexivity.
  - pose proof (@binary_round_signed true d e He) as Hs.
    destruct (binary_round prec emax true d e); try contradiction;
      cbn [signed] in Hs; subst; reflexivity.
Qed.

(** The difference [y - x] of two numbers is positive exactly when
    [x < y]. *)
Lemma SFsub_sign (x y : spec_float) :
  SpecFloat.valid_binary prec emax x = true ->
  SpecFloat.valid_binary prec emax y = true ->
  x <> S754_nan -> y <> S754_nan ->
  SFltb (S754_zero false) (SFsub prec emax y x) = SFltb x y.
Proof.
  intros Vx Vy Hx Hy.
  destruct x as [sx|sx| |sx mx ex]; try contradiction;
  destruct y as [sy|sy| |sy my ey]; try contradiction;
    try (destruct sx, sy; reflexivity);
    try (destruct sx; reflexivity); try (destruct sy; reflexivity).
  cbn [SpecFloat.valid_binary] in Vx, Vy. unfold bounded in Vx, Vy.
  apply andb_prop in Vx, Vy. destruct Vx as [Cx _], Vy as [Cy _].
  pose proof (@canonical_bounds _ _ Cx) as (Hex & _ & _).
  pose proof (@canonical_bounds _ _ Cy) as (Hey & _ & _).
  unfold SFltb at 2. rewrite (@SFcompare_aligned sx sy _ _ _ _ Cx Cy).
  cbn [SFsub]. cbv zeta. rewrite (Z.min_comm ey ex).
  rewrite binary_normalize_sign by lia.
  destruct (Z.compare_spec
              (cond_Zopp sx (Zpos (fst (shl_align mx ex (Z.min ex ey)))))
              (cond_Zopp sy (Zpos (fst (shl_align my ey (Z.min ex ey))))));
    [apply Z.ltb_ge|apply Z.ltb_lt|apply Z.ltb_ge]; lia.
Qed.

Lemma binary_normalize_negative (D e : Z) :
  eMin <= e ->
  SFltb (binary_normalize prec emax D e false) (S754_zero false) = (D <? 0).
Proof.
  intros He. destruct D as [|d|d]; cbn [binary_normalize]; [reflexivity| |].
  - pose proof (@binary_round_signed false d e He) as Hs.
    destruct (binary_round prec emax false d e); try contradiction;
      cbn [signed] in Hs; subst; reflexivity.
  - pose proof (@binary_round_signed true d e He) as Hs.
    destruct (binary_round prec emax true d e); try contradiction;
      cbn [signed] in Hs; subst; reflexivity.
Qed.

Lemma SFsub_negative (x y : spec_float) :
  SpecFloat.valid_binary prec emax x = true ->
  SpecFloat.valid_binary prec emax y = true ->
  x <> S754_nan -> y <> S754_nan ->
  SFltb (SFsub prec emax y x) (S754_zero false) = SFltb y x.
Proof.
  intros Vx Vy Hx Hy.
  destruct x as [sx|sx| |sx mx ex]; try contradiction;
  destruct y as [sy|sy| |sy my ey]; try contradiction;
    try (destruct sx, sy; reflexivity);
    try (destruct sx; reflexivity); try (destruct sy; reflexivity).
  cbn [SpecFloat.valid_binary] in Vx, Vy. unfold bounded in Vx, Vy.
  apply andb_prop in Vx, Vy. destruct Vx as [Cx _], Vy as [Cy _].
  pose proof (@canonical_bounds _ _ Cx) as (Hex & _ & _).
  pose proof (@canonical_bounds _ _ Cy) as (Hey & _ & _).
  unfold SFltb at 2. rewrite (@SFcompare_aligned sy sx _ _ _ _ Cy Cx).
  cbn [SFsub]. cbv zeta.
  rewrite binary_normalize_negative by lia.
  destruct (Z.compare_spec
              (cond_Zopp sy (Zpos (fst (shl_align my ey (Z.min ey ex)))))
              (cond_Zopp sx (Zpos (fst (shl_align mx ex (Z.min ey ex))))));
    [apply Z.ltb_ge|apply Z.ltb_lt|apply Z.ltb_ge]; lia.
Qed.

(** The difference of two numbers that are neither NaN nor infinite is
    not NaN. *)
Lemma SFsub_finite (x y : spec_float) :
  SpecFloat.valid_binary prec emax x = true ->
  SpecFloat.valid_binary prec emax y = true ->
  finiteSF x = true -> finiteSF y = true ->
  SFsub prec emax y x <> S754_nan.
Proof.
  intros Vx Vy Fx Fy.
  destruct x as [sx|sx| |sx mx ex]; try discriminate Fx;
  destruct y as [sy|sy| |sy my ey]; try discriminate Fy;
    try (destruct sx, sy; discriminate); try discriminate.
  cbn [SpecFloat.valid_binary] in Vx, Vy. unfold bounded in Vx, Vy.
  apply andb_prop in Vx, Vy. destruct Vx as [Cx _], Vy as [Cy _].
  pose proof (@canonical_bounds _ _ Cx) as (Hex & _ & _).
  pose proof (@canonical_bounds _ _ Cy) as (Hey & _ & _).
  cbn [SFsub]. cbv zeta.
  match goal with
  | |- binary_normalize _ _ ?D ?e _ <> _ =>
      assert (eMin <= e) as He by lia; destruct D as [|d|d];
      cbn [binary_normalize]; [discriminate| |]
  end.
  - pose proof (@binary_round_signed false d _ He) as Hs. intros E.
    rewrite E in Hs. exact Hs.
  - pose proof (@binary_round_signed true d _ He) as Hs. intros E.
    rewrite E in Hs. exact Hs.
Qed.

End Rounding.

Lemma is_nan_spec (x : float) :
  PrimFloat.is_nan x = false -> Prim2SF x <> S754_nan.
Proof.
  unfold PrimFloat.is_nan. rewrite FloatAxioms.eqb_spec. intros H E.
  rewrite E in H. discriminate H.
Qed.

(** IEEE 754: for numbers that are not NaN, [y - x > 0] exactly when
    [x < y]. *)
Lemma double_sub_sign (x y : float) :
  PrimFloat.is_nan x = false -> PrimFloat.is_nan y = false ->
  (0 <? y - x)%float = (x <? y)%float.
Proof.
  intros Hx Hy. rewrite !FloatAxioms.ltb_spec, FloatAxioms.sub_spec.
  change (Prim2SF 0) with (S754_zero false).
  apply SFsub_sign; auto using Prim2SF_valid, is_nan_spec.
  reflexivity.
Qed.

(** IEEE 754: for numbers that are not NaN, [y - x < 0] exactly when
    [y < x]. *)
Lemma double_sub_negative (x y : float) :
  PrimFloat.is_nan x = false -> PrimFloat.is_nan y = false ->
  (y - x <? 0)%float = (y <? x)%float.
Proof.
  intros Hx Hy. rewrite !FloatAxioms.ltb_spec, FloatAxioms.sub_spec.
  change (Prim2SF 0) with (S754_zero false).
  apply SFsub_negative; auto using Prim2SF_valid, is_nan_spec.
  reflexivity.
Qed.

End DoubleOrder.

(** ** Doubles and cosine similarity *)

(** The product of two doubles does not depend on their order. *)
Lemma double_mul_comm (x y : float) : (x * y)%float = (y * x)%float.
Proof.
  apply Prim2SF_inj. rewrite !FloatAxioms.mul_spec.
  unfold SF64mul, SFmul.
  destruct (Prim2SF x) as [sx|sx| |sx mx ex],
           (Prim2SF y) as [sy|sy| |sy my ey];
    try reflexivity; try (now rewrite xorb_comm).
  now rewrite xorb_comm, Pos.mul_comm, Z.add_comm.
Qed.

Lemma fold_left_agree {A B : Type} (f g : A -> B -> A) (xs : list B) :
  (forall acc x, In x xs -> f acc x = g acc x) ->
  forall acc, fold_left f xs acc = fold_left g xs acc.
Proof.
  induction xs as [|x xs IH]; intros Hfg acc; [reflexivity|].
  cbn [fold_left]. rewrite Hfg by now left.
  apply IH. intros acc' x' Hx'. apply Hfg. now right.
Qed.







Lemma dot_comm (a b : list float) : dot a b = dot b a.
Proof.
  unfold dot. rewrite (Nat.min_comm (length b)).
  apply fold_left_agree. intros sum i _.
  now rewrite double_mul_comm.
Qed.


Lemma truthy_andAlso (x y : float) :
  truthy (andAlso x y) = truthy x && truthy y.
Proof.
  unfold andAlso. destruct (truthy x) eqn:E; [reflexivity|exact E].
Qed.

Lemma cosineSim_falsy (a b : list float) :
  truthy (sumSquares a) = false \/ truthy (sumSquares b) = false ->
  cosineSim a b = 0%float.
Proof.
  intros H. unfold cosineSim. rewrite truthy_andAlso.
  destruct H as [-> | ->]; [reflexivity|].
  now rewrite andb_false_r.
Qed.


Section Similarity.

Variable toLowerCase : jsString -> jsString.



(** C10: [cosineSim] gives the same double for [(a, b)] and for [(b, a)],
    whatever the lengths of the two vectors. *)
Theorem cosineSim_symmetric (a b : list float) :
  cosineSim a b = cosineSim b a.
Proof.
  unfold cosineSim.
  rewrite (dot_comm a b), !truthy_andAlso.
  rewrite (andb_comm (truthy (sumSquares a))).
  now rewrite (double_mul_comm (sumSquares a)).
Qed.

(** With [===], which no NaN satisfies, the two similarities are equal
    as soon as one of them is not NaN. *)
Lemma cosineSim_symmetric_eqb (a b : list float) :
  PrimFloat.is_nan (cosineSim a b) = false ->
  (cosineSim a b =? cosineSim b a)%float = true.
Proof.
  assert (cosineSim b a = cosineSim a b) as ->.
  { unfold cosineSim.
    rewrite (dot_comm a b), !truthy_andAlso.
    rewrite (andb_comm (truthy (sumSquares a))).
    now rewrite (double_mul_comm (sumSquares a)). }
  unfold PrimFloat.is_nan.
  now destruct (cosineSim a b =? cosineSim a b)%float.
Qed.

End Similarity.

(** ** Array.prototype.sort *)

Section SortProperties.

Variable A : Type.
Variable comparefn : A -> A -> comparison.

Lemma insertSorted_permutation (x : A) (xs : list A) :
  Permutation (insertSorted comparefn x xs) (x :: xs).
Proof.
  induction xs as [|y xs IH]; cbn [insertSorted]; [reflexivity|].
  destruct (comparefn x y); try reflexivity.
  rewrite IH. apply perm_swap.
Qed.

Lemma sort_permutation (xs : list A) : Permutation (sort comparefn xs) xs.
Proof.
  induction xs as [|x xs IH]; cbn [sort fold_right]; [reflexivity|].
  fold (sort comparefn xs).
  rewrite insertSorted_permutation. now constructor.
Qed.

Lemma sort_length (xs : list A) : length (sort comparefn xs) = length xs.
Proof.
  apply Permutation_length, sort_permutation.
Qed.

(** Stability: the elements of a class that the comparison function never
    orders keep their relative order. *)
Lemma insertSorted_filter (P : A -> bool) (x : A) (xs : list A) :
  (forall y, P x = true -> P y = true -> comparefn x y <> Gt) ->
  filter P (insertSorted comparefn x xs) = filter P (x :: xs).
Proof.
  intros Hclass. induction xs as [|y xs IH]; cbn [insertSorted]; [reflexivity|].
  destruct (comparefn x y) eqn:E; try reflexivity.
  cbn [filter] in *. rewrite IH.
  destruct (P x) eqn:Px, (P y) eqn:Py; try reflexivity.
  exfalso. now apply (Hclass y).
Qed.

Lemma sort_filter (P : A -> bool) (xs : list A) :
  (forall x y, P x = true -> P y = true -> comparefn x y <> Gt) ->
  filter P (sort comparefn xs) = filter P xs.
Proof.
  intros Hclass. induction xs as [|x xs IH]; [reflexivity|].
  cbn [sort fold_right]. fold (sort comparefn xs).
  rewrite insertSorted_filter by (intros y; apply Hclass).
  cbn [filter]. now rewrite IH.
Qed.

(** A list in which the comparison function orders nothing stays as it
    is. *)
Lemma sort_unordered (xs : list A) :
  (forall x y, In x xs -> In y xs -> comparefn x y <> Gt) ->
  sort comparefn xs = xs.
Proof.
  induction xs as [|x xs IH]; intros Hnone; [reflexivity|].
  cbn [sort fold_right]. fold (sort comparefn xs).
  rewrite IH by (intros a b Ha Hb; apply Hnone; now right).
  destruct xs as [|y xs']; [reflexivity|]. cbn [insertSorted].
  pose proof (Hnone x y (or_introl eq_refl) (or_intror (or_introl eq_refl))).
  destruct (comparefn x y); congruence.
Qed.

(** Order: when the comparison function agrees with a line on which the
    elements have a place, the result descends along that line. *)
Variable place : A -> Z * Z * Z.

Lemma insertSorted_sorted (x : A) (xs : list A) :
  (forall y, In y xs -> comparefn x y = Gt <-> lexLt (place x) (place y)) ->
  StronglySorted (notBelow place) xs ->
  StronglySorted (notBelow place) (insertSorted comparefn x xs).
Proof.
  intros Hcmp Hsorted.
  induction Hsorted as [|y xs Hxs IH Hy]; cbn [insertSorted].
  - constructor; constructor.
  - assert (comparefn x y = Gt <-> lexLt (place x) (place y)) as Hxy
      by (apply Hcmp; now left).
    destruct (comparefn x y) eqn:E.
    + constructor; [now constructor|].
      constructor.
      * intros Hlt. apply Hxy in Hlt. discriminate Hlt.
      * eapply Forall_impl; [|exact Hy]. intros z Hz.
        apply lexLt_negtrans with (b := place y); [|exact Hz].
        intros Hlt. apply Hxy in Hlt. discriminate Hlt.
    + constructor; [now constructor|].
      constructor.
      * intros Hlt. apply Hxy in Hlt. discriminate Hlt.
      * eapply Forall_impl; [|exact Hy]. intros z Hz.
        apply lexLt_negtrans with (b := place y); [|exact Hz].
        intros Hlt. apply Hxy in Hlt. discriminate Hlt.
    + constructor.
      * apply IH. intros z Hz. apply Hcmp. now right.
      * apply (Permutation_Forall
                 (Permutation_sym (insertSorted_permutation x xs))).
        constructor; [|exact Hy].
        apply lexLt_asym. now apply Hxy.
Qed.

Lemma sort_sorted (xs : list A) :
  (forall x y, In x xs -> In y xs ->
     comparefn x y = Gt <-> lexLt (place x) (place y)) ->
  StronglySorted (notBelow place) (sort comparefn xs).
Proof.
  induction xs as [|x xs IH]; intros Hcmp; cbn [sort fold_right].
  - constructor.
  - fold (sort comparefn xs). apply insertSorted_sorted.
    + intros y Hy. apply Hcmp; [now left|right].
      apply (Permutation_in _ (sort_permutation xs) Hy).
    + apply IH. intros a b Ha Hb. apply Hcmp; now right.
Qed.

(** Whatever the comparison function, the runtime's sort rearranges the
    array; for a consistent comparison function it is the stable sort. *)
Variable returnsNaN : A -> A -> bool.
Variable engineOrder : list A -> list nat.

Lemma insertAt_permutation (n : nat) (x : A) (xs : list A) :
  Permutation (insertAt n x xs) (x :: xs).
Proof.
  revert n. induction xs as [|y xs IH]; intros [|n]; cbn [insertAt];
    try reflexivity.
  rewrite IH. apply perm_swap.
Qed.

Lemma rearranged_permutation (xs : list A) :
  forall places, Permutation (rearranged places xs) xs.
Proof.
  induction xs as [|x xs IH]; intros places; cbn [rearranged];
    [reflexivity|].
  rewrite insertAt_permutation. constructor. apply IH.
Qed.

Lemma arraySort_permutation (xs : list A) :
  Permutation (arraySort comparefn returnsNaN engineOrder xs) xs.
Proof.
  unfold arraySort. destruct (consistent comparefn returnsNaN xs).
  - apply sort_permutation.
  - apply rearranged_permutation.
Qed.

Lemma arraySort_length (xs : list A) :
  length (arraySort comparefn returnsNaN engineOrder xs) = length xs.
Proof.
  apply Permutation_length, arraySort_permutation.
Qed.

Lemma arraySort_consistent (xs : list A) :
  (forall a b c, In a xs -> In b xs -> In c xs ->
     consistentAt comparefn returnsNaN a b c = true) ->
  arraySort comparefn returnsNaN engineOrder xs = sort comparefn xs.
Proof.
  intros H. unfold arraySort.
  replace (consistent comparefn returnsNaN xs) with true; [reflexivity|].
  symmetry. unfold consistent.
  apply forallb_forall. intros a Ha.
  apply forallb_forall. intros b Hb.
  apply forallb_forall. intros c Hc. now apply H.
Qed.

End SortProperties.

Lemma StronglySorted_firstn {A : Type} (R : A -> A -> Prop) (n : nat)
  (xs : list A) :
  StronglySorted R xs -> StronglySorted R (firstn n xs).
Proof.
  intros H. revert n. induction H as [|x xs Hxs IH Hx]; intros [|n];
    cbn [firstn]; try constructor.
  - apply IH.
  - rewrite <- (firstn_skipn n xs) in Hx.
    now apply Forall_app in Hx.
Qed.

Lemma slice_take {A : Type} (xs : list A) (n : nat) :
  slice xs 0 n = firstn n xs.
Proof.
  apply (slice_window xs 0 n).
Qed.

(** ** Scores *)

Lemma SFeqb_refl (x : spec_float) : x <> S754_nan -> SFeqb x x = true.
Proof.
  intros Hx. unfold SFeqb.
  destruct x as [s|s| |s m e]; try contradiction; cbn [SFcompare].
  - reflexivity.
  - destruct s; reflexivity.
  - change (Pos.compare_cont Eq m m) with (Pos.compare m m).
    rewrite Z.compare_refl, Pos.compare_refl. destruct s; reflexivity.
Qed.

Lemma is_nan_true (x : float) :
  PrimFloat.is_nan x = true -> Prim2SF x = S754_nan.
Proof.
  unfold PrimFloat.is_nan. rewrite FloatAxioms.eqb_spec. intros H.
  destruct (Prim2SF x) as [s|s| |s m e] eqn:E; try reflexivity;
    rewrite SFeqb_refl in H by discriminate; discriminate H.
Qed.

Lemma double_ltb_place (x y : float) :
  PrimFloat.is_nan x = false -> PrimFloat.is_nan y = false ->
  (x <? y)%float = true <-> lexLt (key (Prim2SF x)) (key (Prim2SF y)).
Proof.
  intros Hx Hy. rewrite FloatAxioms.ltb_spec.
  apply SFltb_key; now apply is_nan_spec.
Qed.

Lemma double_leb_place (x y : float) :
  PrimFloat.is_nan x = false -> PrimFloat.is_nan y = false ->
  (x <=? y)%float = true <-> ~ lexLt (key (Prim2SF y)) (key (Prim2SF x)).
Proof.
  intros Hx Hy. rewrite FloatAxioms.leb_spec.
  apply SFleb_key; now apply is_nan_spec.
Qed.

Lemma lexLt_irrefl (a : Z * Z * Z) : ~ lexLt a a.
Proof.
  intros H. exact (@lexLt_asym a a H H).
Qed.

(** [x - x] is never positive: it is [0], or NaN for an infinity or NaN. *)
Lemma double_sub_diag (x : float) : (0 <? x - x)%float = false.
Proof.
  destruct (PrimFloat.is_nan x) eqn:Hx.
  - apply is_nan_true in Hx.
    rewrite FloatAxioms.ltb_spec, FloatAxioms.sub_spec, Hx. reflexivity.
  - rewrite double_sub_sign by assumption.
    apply not_true_is_false. intros H.
    apply double_ltb_place in H; try assumption.
    exact (@lexLt_irrefl _ H).
Qed.

(** Doubles that [===] holds equal are not NaN, and neither is below the
    other. *)
Lemma double_eqb_not_nan (x y : float) :
  (x =? y)%float = true ->
  PrimFloat.is_nan x = false /\ PrimFloat.is_nan y = false.
Proof.
  rewrite FloatAxioms.eqb_spec. intros H.
  unfold PrimFloat.is_nan. rewrite !FloatAxioms.eqb_spec.
  destruct (Prim2SF x) as [sx|sx| |sx mx ex] eqn:Ex;
    destruct (Prim2SF y) as [sy|sy| |sy my ey] eqn:Ey;
    try discriminate H;
    rewrite !SFeqb_refl by discriminate; split; reflexivity.
Qed.

Lemma double_eqb_sub (x y : float) :
  (x =? y)%float = true -> (0 <? y - x)%float = false.
Proof.
  intros H. destruct (@double_eqb_not_nan x y H) as [Hx Hy].
  rewrite double_sub_sign by assumption.
  apply not_true_is_false. intros Hlt.
  apply double_ltb_place in Hlt; try assumption.
  rewrite FloatAxioms.eqb_spec in H.
  exact (@SFeqb_key _ _ H Hlt).
Qed.

Lemma signOf_Gt (v : float) : signOf v = Gt <-> (0 <? v)%float = true.
Proof.
  unfold signOf. destruct (0 <? v)%float; [tauto|].
  destruct (v <? 0)%float; split; discriminate.
Qed.

Lemma signOfDifference_Gt (a b : Number) :
  comparable a b ->
  signOfDifference b a = Gt <-> lexLt (numberKey a) (numberKey b).
Proof.
  destruct a as [x|m], b as [y|n]; cbn [comparable]; try contradiction.
  - intros [Hx Hy]. cbn [signOfDifference toDouble numberKey].
    rewrite signOf_Gt, double_sub_sign by assumption.
    now apply double_ltb_place.
  - intros _. cbn [signOfDifference numberKey]. unfold lexLt.
    rewrite Nat.compare_gt_iff. lia.
Qed.

Lemma numberLe_place (a b : Number) :
  comparable a b ->
  numberLe a b = true <-> ~ lexLt (numberKey b) (numberKey a).
Proof.
  destruct a as [x|m], b as [y|n]; cbn [comparable]; try contradiction.
  - intros [Hx Hy]. cbn [numberLe toDouble numberKey].
    now apply double_leb_place.
  - intros _. cbn [numberLe numberKey]. unfold lexLt.
    rewrite Nat.leb_le. lia.
Qed.

Lemma signOfDifference_diag (a : Number) : signOfDifference a a <> Gt.
Proof.
  destruct a as [x|n]; cbn [signOfDifference toDouble].
  - rewrite signOf_Gt, double_sub_diag. discriminate.
  - now rewrite Nat.compare_refl.
Qed.

Lemma sameScore_not_ordered (a b : Scored) :
  sameScore a b -> byScore a b <> Gt.
Proof.
  unfold byScore. intros [E|E].
  - rewrite E. apply signOfDifference_diag.
  - destruct (score a) as [x|m], (score b) as [y|n];
      cbn [numberEq signOfDifference] in *;
      try (rewrite signOf_Gt, double_eqb_sub by exact E; discriminate).
    apply Nat.eqb_eq in E. subst. now rewrite Nat.compare_refl.
Qed.

Lemma signOfDifference_Lt (a b : Number) :
  comparable a b ->
  signOfDifference b a = Lt <-> lexLt (numberKey b) (numberKey a).
Proof.
  destruct a as [x|m], b as [y|n]; cbn [comparable]; try contradiction.
  - intros [Hx Hy]. cbn [signOfDifference toDouble numberKey].
    unfold signOf.
    rewrite double_sub_sign, double_sub_negative by assumption.
    rewrite <- (@double_ltb_place y x Hy Hx).
    destruct (x <? y)%float eqn:Exy.
    + split; [discriminate|]. intros Eyx.
      apply (@double_ltb_place x y Hx Hy) in Exy.
      apply (@double_ltb_place y x Hy Hx) in Eyx.
      now destruct (@lexLt_asym _ _ Exy).
    + destruct (y <? x)%float; split; congruence.
  - intros _. cbn [signOfDifference numberKey]. unfold lexLt.
    rewrite Nat.compare_lt_iff. lia.
Qed.

Lemma lexLt_trans (a b c : Z * Z * Z) : lexLt a b -> lexLt b c -> lexLt a c.
Proof.
  destruct a as [[a1 a2] a3], b as [[b1 b2] b3], c as [[c1 c2] c3].
  unfold lexLt. lia.
Qed.

Lemma lexLt_trichotomy (a b : Z * Z * Z) :
  ~ lexLt a b -> ~ lexLt b a -> a = b.
Proof.
  destruct a as [[a1 a2] a3], b as [[b1 b2] b3]. unfold lexLt.
  intros Hab Hba. assert (a1 = b1 /\ a2 = b2 /\ a3 = b3) as (-> & -> & ->)
    by lia. reflexivity.
Qed.

(** What the sign of [b.score - a.score] says of the places of two
    comparable scores. *)
Lemma byScore_place (a b : Scored) :
  comparable (score a) (score b) ->
  match byScore a b with
  | Gt => lexLt (numberKey (score a)) (numberKey (score b))
  | Lt => lexLt (numberKey (score b)) (numberKey (score a))
  | Eq => numberKey (score a) = numberKey (score b)
  end.
Proof.
  intros Hcmp. unfold byScore.
  pose proof (@signOfDifference_Gt _ _ Hcmp) as Hgt.
  pose proof (@signOfDifference_Lt _ _ Hcmp) as Hlt.
  destruct (signOfDifference (score b) (score a)).
  - apply lexLt_trichotomy; intros H; [apply Hgt in H|apply Hlt in H];
      discriminate H.
  - now apply Hlt.
  - now apply Hgt.
Qed.

Lemma comparable_refl (a b : Number) : comparable a b -> comparable a a.
Proof.
  destruct a, b; cbn [comparable]; tauto.
Qed.

Lemma comparable_sym (a b : Number) : comparable a b -> comparable b a.
Proof.
  destruct a, b; cbn [comparable]; tauto.
Qed.

Lemma StronglySorted_weaken {A : Type} (R R' : A -> A -> Prop) (xs : list A) :
  (forall a b, In a xs -> In b xs -> R a b -> R' a b) ->
  StronglySorted R xs -> StronglySorted R' xs.
Proof.
  intros Himp H. induction H as [|x xs Hxs IH Hx]; constructor.
  - apply IH. intros a b Ha Hb. apply Himp; now right.
  - rewrite Forall_forall in *. intros y Hy.
    apply Himp; [now left|now right|now apply Hx].
Qed.

(** ** Ranking *)

(** A difference with NaN is NaN. *)
Lemma double_sub_nan (x y : float) :
  PrimFloat.is_nan x = true -> PrimFloat.is_nan (y - x)%float = true.
Proof.
  intros Hx. apply is_nan_true in Hx.
  unfold PrimFloat.is_nan.
  rewrite FloatAxioms.eqb_spec, FloatAxioms.sub_spec, Hx.
  now destruct (Prim2SF y).
Qed.

Lemma differenceIsNaN_diag (a : Number) :
  differenceIsNaN a a = false -> isNaN a = false.
Proof.
  destruct a as [x|n]; cbn [differenceIsNaN isNaN toDouble]; [|reflexivity].
  intros H. destruct (PrimFloat.is_nan x) eqn:Hx; [|reflexivity].
  now rewrite (@double_sub_nan x x Hx) in H.
Qed.

Lemma is_finite_spec (x : float) :
  PrimFloat.is_finite x = true -> finiteSF (Prim2SF x) = true.
Proof.
  unfold PrimFloat.is_finite, PrimFloat.is_nan, PrimFloat.is_infinity.
  rewrite !FloatAxioms.eqb_spec, FloatAxioms.abs_spec.
  change (Prim2SF infinity) with (S754_infinity false).
  destruct (Prim2SF x) as [sx|sx| |sx mx ex]; cbn [finiteSF];
    try reflexivity; intros H; try discriminate H;
    destruct sx; discriminate H.
Qed.

(** The difference of two finite doubles is not NaN. *)
Lemma double_sub_finite (x y : float) :
  PrimFloat.is_finite x = true -> PrimFloat.is_finite y = true ->
  PrimFloat.is_nan (y - x)%float = false.
Proof.
  intros Hx Hy. unfold PrimFloat.is_nan.
  rewrite FloatAxioms.eqb_spec, FloatAxioms.sub_spec.
  rewrite SFeqb_refl; [reflexivity|].
  apply SFsub_finite; auto using Prim2SF_valid, is_finite_spec.
  reflexivity.
Qed.

(** A comparison of scores that never returns NaN is a consistent
    comparison function. *)
Lemma byScore_consistent (scored : list Scored) :
  (forall a b, In a scored -> In b scored -> comparable (score a) (score b)) ->
  (forall a b, In a scored -> In b scored -> byScoreIsNaN a b = false) ->
  forall a b c, In a scored -> In b scored -> In c scored ->
    consistentAt byScore byScoreIsNaN a b c = true.
Proof.
  intros Hcmp Hnan a b c Ha Hb Hc. unfold consistentAt.
  rewrite (Hnan a b Ha Hb). cbn [negb andb].
  pose proof (@byScore_place a a (Hcmp a a Ha Ha)) as Haa.
  pose proof (@byScore_place a b (Hcmp a b Ha Hb)) as Hab.
  pose proof (@byScore_place b a (Hcmp b a Hb Ha)) as Hba.
  pose proof (@byScore_place b c (Hcmp b c Hb Hc)) as Hbc.
  pose proof (@byScore_place a c (Hcmp a c Ha Hc)) as Hac.
  destruct (numberKey (score a)) as [[a1 a2] a3],
           (numberKey (score b)) as [[b1 b2] b3],
           (numberKey (score c)) as [[c1 c2] c3].
  unfold lexLt in *.
  destruct (byScore a a), (byScore a b), (byScore b a), (byScore b c),
    (byScore a c); cbn [sameSign implb andb]; try reflexivity; exfalso;
    repeat match goal with
           | H : (_, _, _) = (_, _, _) |- _ => injection H as ? ? ?
           end; lia.
Qed.

Section Ranking.

Variable sortOrder : list Scored -> list nat.

Lemma rank_length (scored : list Scored) :
  length (rank sortOrder scored) = Nat.min (length scored) 5.
Proof.
  unfold rank. rewrite slice_take, length_firstn, arraySort_length.
  apply Nat.min_comm.
Qed.

(** The top five and the chunks left out make up the sorted index. *)
Lemma rank_rest (scored : list Scored) :
  rank sortOrder scored
  ++ skipn 5 (arraySort byScore byScoreIsNaN sortOrder scored)
  = arraySort byScore byScoreIsNaN sortOrder scored.
Proof.
  unfold rank. rewrite slice_take. apply firstn_skipn.
Qed.

Lemma In_rank (scored : list Scored) (sc : Scored) :
  In sc (rank sortOrder scored) -> In sc scored.
Proof.
  unfold rank. rewrite slice_take. intros H.
  apply (Permutation_in _
           (arraySort_permutation byScore byScoreIsNaN sortOrder scored)).
  rewrite <- (firstn_skipn 5). apply in_or_app. now left.
Qed.

End Ranking.

Lemma sort_byScore_stable (P : Scored -> bool) (scored : list Scored) :
  (forall a b, P a = true -> P b = true -> sameScore a b) ->
  filter P (sort byScore scored) = filter P scored.
Proof.
  intros Hclass. apply sort_filter.
  intros a b Ha Hb. apply sameScore_not_ordered. now apply Hclass.
Qed.

Lemma sort_byScore_descending (scored : list Scored) :
  (forall a b, In a scored -> In b scored -> comparable (score a) (score b)) ->
  Descending (sort byScore scored).
Proof.
  intros Hcmp. unfold Descending.
  apply StronglySorted_weaken
    with (R := notBelow (fun sc => numberKey (score sc))).
  - intros a b Ha Hb Hab. apply numberLe_place; [|exact Hab].
    apply Hcmp; eapply Permutation_in; try apply sort_permutation; eassumption.
  - apply sort_sorted with (place := fun sc => numberKey (score sc)).
    intros a b Ha Hb. unfold byScore. apply signOfDifference_Gt.
    now apply Hcmp.
Qed.

Section Asking.

Variable toLowerCase : jsString -> jsString.
Variable sortOrder : list Scored -> list nat.
Variable env : Env.

Lemma scoreChunks_chunks (qEmbedding : Nullable (list float))
  (question : jsString) (index : list Chunk) :
  map chunk (scoreChunks toLowerCase qEmbedding question index) = index.
Proof.
  destruct qEmbedding; cbn [scoreChunks]; rewrite map_map; apply map_id.
Qed.

Lemma scoreChunks_comparable (qEmbedding : Nullable (list float))
  (question : jsString) (index : list Chunk) :
  let scored := scoreChunks toLowerCase qEmbedding question index in
  Forall (fun sc => isNaN (score sc) = false) scored ->
  forall a b, In a scored -> In b scored -> comparable (score a) (score b).
Proof.
  intros scored Hnan a b Ha Hb. rewrite Forall_forall in Hnan.
  pose proof (Hnan a Ha) as Hna. pose proof (Hnan b Hb) as Hnb.
  unfold scored in Ha, Hb.
  destruct qEmbedding; cbn [scoreChunks] in Ha, Hb;
    apply in_map_iff in Ha, Hb;
    destruct Ha as (cha & <- & _), Hb as (chb & <- & _);
    cbn [score comparable isNaN] in *; auto.
Qed.

(** What [handleAsk] does on a question that is not empty. *)
Lemma handleAsk_asks (st : AppState) (w : World) :
  nonEmpty (trim (query st)) = true ->
  let question := trim (query st) in
  let embedded := fetchEmbedding env question w in
  let top :=
    rank sortOrder
      (scoreChunks toLowerCase (fst embedded) question (index st)) in
  let answered :=
    callAnswerAPI env (assembleContext top) question (snd embedded) in
  handleAsk toLowerCase sortOrder env st w
  = (setAnswer (setAnswer st None) (Some (mkAnswer (fst answered) top)),
     snd answered).
Proof.
  intros Hq. cbv zeta. unfold handleAsk. rewrite Hq. cbn [negb].
  unfold bind.
  destruct (fetchEmbedding env (trim (query st)) w) as [qEmbedding w1].
  cbn [fst snd index setAnswer].
  destruct (callAnswerAPI env _ (trim (query st)) w1) as [answerText w2].
  reflexivity.
Qed.

End Asking.

(** ** Token overlap *)

Lemma jsString_eqb_eq (s t : jsString) : jsString_eqb s t = true <-> s = t.
Proof.
  unfold jsString_eqb. destruct (list_eq_dec N.eq_dec s t); split;
    congruence.
Qed.

Lemma includes_In (arr : list jsString) (t : jsString) :
  includes arr t = true <-> In t arr.
Proof.
  unfold includes. rewrite existsb_exists. split.
  - intros (u & Hu & E). apply jsString_eqb_eq in E. now subst.
  - intros H. exists t. split; [assumption|now apply jsString_eqb_eq].
Qed.

Lemma filter_includes_count (chunkTokens queryTokens : list jsString) :
  OverlapCount chunkTokens queryTokens
    (length (filter (fun t => includes chunkTokens t) queryTokens)).
Proof.
  induction queryTokens as [|t q IH]; cbn [filter]; [constructor|].
  destruct (includes chunkTokens t) eqn:E.
  - apply Overlap_hit; [now apply includes_In|exact IH].
  - apply Overlap_miss; [|exact IH].
    intros H. apply includes_In in H. congruence.
Qed.

Lemma OverlapCount_functional (chunkTokens queryTokens : list jsString)
  (n m : nat) :
  OverlapCount chunkTokens queryTokens n ->
  OverlapCount chunkTokens queryTokens m -> n = m.
Proof.
  intros Hn. revert m.
  induction Hn as [|t q n Ht _ IH|t q n Ht _ IH]; intros m Hm;
    inversion Hm; subst; try contradiction; auto.
Qed.

Lemma join_length (sep : jsString) (parts : list jsString) :
  length (join sep parts)
  = list_sum (map (@length codeUnit) parts)
    + (length parts - 1) * length sep.
Proof.
  induction parts as [|p parts IH]; [reflexivity|].
  destruct parts as [|p' rest].
  - cbn. lia.
  - change (join sep (p :: p' :: rest))
      with (p ++ sep ++ join sep (p' :: rest)).
    rewrite !length_app, IH.
    cbn [map list_sum fold_right length Nat.sub]. rewrite Nat.sub_0_r.
    cbn [Nat.mul]. lia.
Qed.

Section Ask.

Variable toLowerCase : jsString -> jsString.
Variable sortOrder : list Scored -> list nat.
Variable env : Env.

Lemma In_scoreChunks_fallback (qEmbedding : Nullable (list float))
  (question : jsString) (index : list Chunk) (sc : Scored) :
  (forall q, qEmbedding <> Value q) ->
  In sc (scoreChunks toLowerCase qEmbedding question index) ->
  In (chunk sc) index
  /\ score sc
     = Count (length (filter
                        (fun t => includes
                                    (tokenize toLowerCase (Value (text (chunk sc)))) t)
                        (tokenize toLowerCase (Value question)))).
Proof.
  intros Hq.
  destruct qEmbedding as [| |q]; [| |now destruct (Hq q)];
    cbn [scoreChunks]; rewrite in_map_iff;
    intros (ch & <- & Hin); now split.
Qed.

(** C3: in the fallback branch of [handleAsk] the score of a chunk is the
    number of tokens of the question, each occurrence counted, that occur
    among the tokens of the chunk; so of two chunks the one with more such
    occurrences has the greater score, and the comparison function of the
    sort puts it first. *)
Theorem fallback_score_counts_overlap (qEmbedding : Nullable (list float))
  (question : jsString) (index : list Chunk) (a b : Scored) (n m : nat) :
  (forall q, qEmbedding <> Value q) ->
  In a (scoreChunks toLowerCase qEmbedding question index) ->
  In b (scoreChunks toLowerCase qEmbedding question index) ->
  OverlapCount (tokenize toLowerCase (Value (text (chunk a))))
               (tokenize toLowerCase (Value question)) n ->
  OverlapCount (tokenize toLowerCase (Value (text (chunk b))))
               (tokenize toLowerCase (Value question)) m ->
  score a = Count n /\ score b = Count m
  /\ n <= length (tokenize toLowerCase (Value question))
  /\ (m < n -> byScore b a = Gt /\ numberLe (score a) (score b) = false).
Proof.
  intros Hq Ha Hb Hn Hm.
  apply In_scoreChunks_fallback in Ha, Hb; try assumption.
  destruct Ha as [_ Ha], Hb as [_ Hb].
  rewrite (OverlapCount_functional Hn (filter_includes_count _ _)) in *.
  rewrite (OverlapCount_functional Hm (filter_includes_count _ _)) in *.
  rewrite Ha, Hb. repeat split.
  - apply filter_length_le.
  - unfold byScore. rewrite Ha, Hb. cbn [signOfDifference].
    now apply Nat.compare_gt_iff.
  - cbn [numberLe]. now apply Nat.leb_gt.
Qed.

Lemma scoreChunks_consistent (qEmbedding : Nullable (list float))
  (question : jsString) (index : list Chunk) :
  let scored := scoreChunks toLowerCase qEmbedding question index in
  NeverNaN scored ->
  (forall a b, In a scored -> In b scored -> comparable (score a) (score b))
  /\ arraySort byScore byScoreIsNaN sortOrder scored = sort byScore scored.
Proof.
  intros scored Hnan.
  assert (forall a b, In a scored -> In b scored ->
                      comparable (score a) (score b)) as Hcmp.
  { apply scoreChunks_comparable. apply Forall_forall. intros sc Hsc.
    apply differenceIsNaN_diag. exact (Hnan sc sc Hsc Hsc). }
  split; [exact Hcmp|].
  apply arraySort_consistent. now apply byScore_consistent.
Qed.

Lemma scoreChunks_fallback_NeverNaN (qEmbedding : Nullable (list float))
  (question : jsString) (index : list Chunk) :
  (forall q, qEmbedding <> Value q) ->
  NeverNaN (scoreChunks toLowerCase qEmbedding question index).
Proof.
  intros Hq a b Ha Hb.
  apply In_scoreChunks_fallback in Ha, Hb; try assumption.
  destruct Ha as [_ Ha], Hb as [_ Hb].
  unfold byScoreIsNaN. now rewrite Ha, Hb.
Qed.

Lemma scoreChunks_finite_NeverNaN (qEmbedding : Nullable (list float))
  (question : jsString) (index : list Chunk) :
  let scored := scoreChunks toLowerCase qEmbedding question index in
  Forall (fun sc => isFinite (score sc) = true) scored ->
  NeverNaN scored.
Proof.
  intros scored Hfinite a b Ha Hb. rewrite Forall_forall in Hfinite.
  pose proof (Hfinite a Ha) as Hfa. pose proof (Hfinite b Hb) as Hfb.
  unfold scored in Ha, Hb. unfold byScoreIsNaN.
  destruct qEmbedding; cbn [scoreChunks] in Ha, Hb;
    apply in_map_iff in Ha, Hb;
    destruct Ha as (cha & <- & _), Hb as (chb & <- & _);
    cbn [score differenceIsNaN toDouble isFinite] in *;
    try reflexivity.
  now apply double_sub_finite.
Qed.

(** C2, amended: after an ask with a question that is not empty, the
    sources of the answer are the first [min N 5] entries of a
    rearrangement of the scored index.  Whenever the comparison
    [b.score - a.score] of two entries is never NaN, that rearrangement
    descends by score and the chunks of one same score keep in it the
    order they have in the index; this is so in the fallback branch, and
    in the vector branch whenever every score is finite. *)
Theorem ask_ranks_top_five (st : AppState) (w : World) :
  nonEmpty (trim (query st)) = true ->
  let question := trim (query st) in
  let qEmbedding := fst (fetchEmbedding env question w) in
  let scored := scoreChunks toLowerCase qEmbedding question (index st) in
  let top := rank sortOrder scored in
  exists answerText rest,
    answer (fst (handleAsk toLowerCase sortOrder env st w))
    = Some (mkAnswer answerText top)
    /\ map chunk scored = index st
    /\ Permutation (top ++ rest) scored
    /\ length top = Nat.min (length (index st)) 5
    /\ (NeverNaN scored ->
        Descending (top ++ rest)
        /\ forall P : Scored -> bool,
             (forall a b, P a = true -> P b = true -> sameScore a b) ->
             filter P top ++ filter P rest = filter P scored)
    /\ ((forall q, qEmbedding <> Value q) -> NeverNaN scored)
    /\ (Forall (fun sc => isFinite (score sc) = true) scored ->
        NeverNaN scored).
Proof.
  intros Hq question qEmbedding scored top.
  eexists.
  exists (skipn 5 (arraySort byScore byScoreIsNaN sortOrder scored)).
  rewrite (handleAsk_asks toLowerCase sortOrder env st w Hq).
  cbn [fst answer setAnswer].
  fold question. fold qEmbedding. fold scored. fold top.
  assert (top ++ skipn 5 (arraySort byScore byScoreIsNaN sortOrder scored)
          = arraySort byScore byScoreIsNaN sortOrder scored) as Hrest
    by apply rank_rest.
  rewrite Hrest.
  split; [reflexivity|].
  split; [apply scoreChunks_chunks|].
  split; [apply arraySort_permutation|].
  split; [unfold top; rewrite rank_length; f_equal;
          rewrite <- (scoreChunks_chunks toLowerCase qEmbedding question
                        (index st));
          symmetry; apply length_map|].
  split; [|split].
  - intros Hnan.
    destruct (scoreChunks_consistent qEmbedding question (index st) Hnan)
      as [Hcmp Hsort].
    fold scored in Hcmp, Hsort. split.
    + rewrite Hsort. now apply sort_byScore_descending.
    + intros P HP. rewrite <- filter_app, Hrest, Hsort.
      now apply sort_byScore_stable.
  - apply scoreChunks_fallback_NeverNaN.
  - apply scoreChunks_finite_NeverNaN.
Qed.

(** X5: an empty query embedding, which the embed endpoint sends when the
    provider's body holds none, is truthy: the vector branch is taken,
    every chunk is scored [0], and the ranking is the first five chunks of
    the index in index order. *)
Lemma empty_query_embedding_ranks_first_five (question : jsString)
  (index : list Chunk) :
  let scored := scoreChunks toLowerCase (Value []) question index in
  scored = map (fun ch => mkScored ch (Double 0%float)) index
  /\ map chunk (rank sortOrder scored) = firstn 5 index.
Proof.
  cbv zeta.
  assert (scoreChunks toLowerCase (Value []) question index
          = map (fun ch => mkScored ch (Double 0%float)) index) as E.
  { cbn [scoreChunks]. apply map_ext. intros ch.
    rewrite (@cosineSim_falsy [] (orEmpty (embedding ch))) by now left.
    reflexivity. }
  split; [exact E|].
  assert (forall a, In a (scoreChunks toLowerCase (Value []) question index) ->
                    score a = Double 0%float) as Hzero.
  { rewrite E. intros a Ha. apply in_map_iff in Ha.
    now destruct Ha as (ch & <- & _). }
  unfold rank. rewrite slice_take, arraySort_consistent, sort_unordered.
  - rewrite <- firstn_map. f_equal. apply scoreChunks_chunks.
  - intros a b Ha Hb. unfold byScore.
    rewrite (Hzero a Ha), (Hzero b Hb). apply signOfDifference_diag.
  - apply byScore_consistent; intros a b Ha Hb.
    + rewrite (Hzero a Ha), (Hzero b Hb). split; reflexivity.
    + unfold byScoreIsNaN. rewrite (Hzero a Ha), (Hzero b Hb). reflexivity.
Qed.

End Ask.

(** ** Trimming *)

Lemma trimStart_empty (s : jsString) :
  trimStart s = [] <-> forallb isWhiteSpace s = true.
Proof.
  induction s as [|c s IH]; cbn [trimStart forallb]; [tauto|].
  destruct (isWhiteSpace c); cbn [andb]; [exact IH|].
  split; discriminate.
Qed.

Lemma forallb_rev {A : Type} (f : A -> bool) (xs : list A) :
  forallb f (rev xs) = forallb f xs.
Proof.
  induction xs as [|x xs IH]; [reflexivity|].
  cbn [rev forallb]. rewrite forallb_app, IH. cbn [forallb].
  rewrite andb_true_r. apply andb_comm.
Qed.

(** A question is empty once trimmed exactly when it is made of white
    space only. *)
Lemma trim_empty (s : jsString) :
  trim s = [] <-> forallb isWhiteSpace s = true.
Proof.
  unfold trim, trimEnd. split.
  - intros H. apply (f_equal (@rev codeUnit)) in H.
    rewrite rev_involutive in H. cbn [rev] in H.
    apply trimStart_empty in H. rewrite forallb_rev in H.
    apply trimStart_empty.
    induction s as [|c s IH]; [reflexivity|].
    cbn [trimStart] in *. destruct (isWhiteSpace c) eqn:E; [now apply IH|].
    cbn [forallb] in H. rewrite E in H. discriminate H.
  - intros H. apply trimStart_empty in H. now rewrite H.
Qed.

(** ** The context and the outcome of an ask *)


Section Outcome.

Variable toLowerCase : jsString -> jsString.
Variable sortOrder : list Scored -> list nat.
Variable env : Env.

Lemma callAnswerAPI_fails (context question : jsString) (w : World) :
  Fails (answerEndpoint env (length (requests w)) context question) ->
  callAnswerAPI env context question w
  = (Value apology, afterRequest w (PostAnswer context question)).
Proof.
  intros H. unfold callAnswerAPI, bind, postAnswer, ret, afterRequest.
  inversion H as [E|status body Hok E|status E|status E];
    try rewrite Hok; try reflexivity;
    destruct (ok status); reflexivity.
Qed.

Lemma fetchEmbedding_fails (input : jsString) (w : World) :
  Fails (embedEndpoint env (length (requests w)) input) ->
  fetchEmbedding env input w = (Null, afterRequest w (PostEmbed input)).
Proof.
  intros H. unfold fetchEmbedding, bind, postEmbed, ret, afterRequest.
  inversion H as [E|status body Hok E|status E|status E];
    try rewrite Hok; try reflexivity;
    destruct (ok status); reflexivity.
Qed.

(** C6, amended: when the request to the generation provider fails
    (the network, a status that is not a success such as 429, a body that
    is not JSON, or the JSON value [null]), [handleAsk] still ends, the
    text of the answer is the fixed apology and its sources are the
    top-ranked chunks whose context was sent to the provider.  A success
    whose body is JSON of another shape is no failure for the code: the
    text of the answer is the [answer] property of the body as it is,
    [undefined] when the body has none, with the same sources. *)
Theorem generation_failure_gives_apology (st : AppState) (w : World) :
  nonEmpty (trim (query st)) = true ->
  let question := trim (query st) in
  let embedded := fetchEmbedding env question w in
  let top :=
    rank sortOrder
      (scoreChunks toLowerCase (fst embedded) question (index st)) in
  let context := assembleContext top in
  let response :=
    answerEndpoint env (length (requests (snd embedded))) context question in
  (Fails response ->
   handleAsk toLowerCase sortOrder env st w
   = (setAnswer st (Some (mkAnswer (Value apology) top)),
      afterRequest (snd embedded) (PostAnswer context question)))
  /\ (forall status data_answer,
        response = Response status (Parsed data_answer) ->
        ok status = true ->
        handleAsk toLowerCase sortOrder env st w
        = (setAnswer st (Some (mkAnswer data_answer top)),
           afterRequest (snd embedded) (PostAnswer context question))).
Proof.
  intros Hq question embedded top context response.
  rewrite (handleAsk_asks toLowerCase sortOrder env st w Hq).
  fold question. fold embedded. fold top. fold context. split.
  - intros Hfails. rewrite (callAnswerAPI_fails _ _ _ Hfails). reflexivity.
  - intros status data_answer Hresponse Hok.
    unfold callAnswerAPI, bind, postAnswer, ret, afterRequest.
    fold response. rewrite Hresponse, Hok. reflexivity.
Qed.


(** C8: when the question is empty once trimmed, [handleAsk] returns at
    once: the state, with its answer, is the one it was, and the world has
    no request more. *)
Theorem empty_question_is_ignored (st : AppState) (w : World) :
  trim (query st) = [] ->
  handleAsk toLowerCase sortOrder env st w = (st, w)
  /\ answer (fst (handleAsk toLowerCase sortOrder env st w)) = answer st
  /\ requests (snd (handleAsk toLowerCase sortOrder env st w)) = requests w.
Proof.
  intros Hq. unfold handleAsk. rewrite Hq. cbn. auto.
Qed.

(** X1: a success response whose body parses to something else than
    [null] is not a failure for [callAnswerAPI]: the [answer] property is
    returned as it is, [undefined] when it is absent, and not the
    apology. *)
Lemma callAnswerAPI_reads_answer (context question : jsString) (w : World)
  (status : nat) (data_answer : Nullable jsString) :
  answerEndpoint env (length (requests w)) context question
  = Response status (Parsed data_answer) ->
  ok status = true ->
  callAnswerAPI env context question w
  = (data_answer, afterRequest w (PostAnswer context question)).
Proof.
  intros E Hok. unfold callAnswerAPI, bind, postAnswer, ret, afterRequest.
  now rewrite E, Hok.
Qed.

(** X2: a success response whose body parses to something else than
    [null] makes [fetchEmbedding] return the [embedding] property as it
    is, [undefined] when it is absent. *)
Lemma fetchEmbedding_reads_embedding (input : jsString) (w : World)
  (status : nat) (data_embedding : Nullable (list float)) :
  embedEndpoint env (length (requests w)) input
  = Response status (Parsed data_embedding) ->
  ok status = true ->
  fetchEmbedding env input w
  = (data_embedding, afterRequest w (PostEmbed input)).
Proof.
  intros E Hok. unfold fetchEmbedding, bind, postEmbed, ret, afterRequest.
  now rewrite E, Hok.
Qed.

(** X3: an ask with a question that is not empty makes exactly one
    request for an embedding, of the trimmed question, and then exactly one
    request for an answer. *)
Lemma handleAsk_requests (st : AppState) (w : World) :
  nonEmpty (trim (query st)) = true ->
  exists context,
    requests (snd (handleAsk toLowerCase sortOrder env st w))
    = requests w ++ [PostEmbed (trim (query st));
                     PostAnswer context (trim (query st))].
Proof.
  intros Hq. rewrite (handleAsk_asks toLowerCase sortOrder env st w Hq).
  eexists. cbn [snd].
  unfold callAnswerAPI, fetchEmbedding, bind, postAnswer, postEmbed, ret.
  cbn [fst snd requests]. rewrite <- app_assoc. reflexivity.
Qed.

End Outcome.

(** * The scenarios of the specification and instances of the theorems *)

Lemma tokenize_tokens_idempotent_witness :
  keepsTokenText asciiLowerCase
  /\ tokenize asciiLowerCase
       (Value (join (lit " ")
                 (tokenize asciiLowerCase (Value (lit "Close the STORE!")))))
     = tokenize asciiLowerCase (Value (lit "Close the STORE!")).
Proof.
  split; [exact asciiLowerCase_keeps|].
  apply (tokenize_tokens_idempotent (lit "Close the STORE!")
           asciiLowerCase_keeps).
Defined.

(** Scenario with embeddings: the question and the chunk about closing
    have the same embedding, the unrelated chunk an orthogonal one and the
    third chunk none; the scores are 1, 0 and 0, all finite. *)
Lemma ask_ranks_top_five_witness :
  nonEmpty (trim (query storeState)) = true
  /\ exists answerText rest,
       let scored :=
         scoreChunks asciiLowerCase (Value [1; 0]%float)
           (trim (query storeState)) (index storeState) in
       let top := rank unsorted scored in
       answer (fst (handleAsk asciiLowerCase unsorted servingEnv storeState
                      emptyWorld))
       = Some (mkAnswer answerText top)
       /\ length top = 3
       /\ Permutation (top ++ rest) scored
       /\ Descending (top ++ rest)
       /\ map (fun sc => id (chunk sc)) top = [lit "c2"; lit "c1"; lit "c3"].
Proof.
  split; [reflexivity|].
  destruct (ask_ranks_top_five asciiLowerCase unsorted servingEnv storeState
              emptyWorld eq_refl)
    as (answerText & rest & Hanswer & _ & Hperm & Hlength & Hsorted & _
        & Hfinite).
  exists answerText, rest. cbv zeta.
  split; [exact Hanswer|]. split; [exact Hlength|]. split; [exact Hperm|].
  split; [|vm_compute; reflexivity].
  apply Hsorted, Hfinite. repeat constructor.
Defined.

(** Scenario with an overflowing similarity: the square of [2^600] is
    infinite, so the score of the first chunk is [Infinity / Infinity],
    NaN; the scores of the two chunks are NaN and 0, and whatever order
    the engine gives the two sources, it does not descend by score. *)
Lemma ask_with_nan_score_is_not_descending :
  exists scored,
    map score scored = [Double nan; Double 0%float]
    /\ (forall ranked, Permutation ranked scored -> ~ Descending ranked)
    /\ forall sortOrder,
         exists top,
           option_map sources
             (answer (fst (handleAsk asciiLowerCase sortOrder hugeEnv
                             hugeState emptyWorld)))
           = Some top
           /\ Permutation top scored
           /\ ~ Descending top.
Proof.
  exists (scoreChunks asciiLowerCase
            (fst (fetchEmbedding hugeEnv (trim (query hugeState)) emptyWorld))
            (trim (query hugeState)) (index hugeState)).
  assert (map score
            (scoreChunks asciiLowerCase
               (fst (fetchEmbedding hugeEnv (trim (query hugeState))
                       emptyWorld))
               (trim (query hugeState)) (index hugeState))
          = [Double nan; Double 0%float]) as Hscores
    by (vm_compute; reflexivity).
  split; [exact Hscores|].
  assert (forall sortOrder,
            option_map sources
              (answer (fst (handleAsk asciiLowerCase sortOrder hugeEnv
                              hugeState emptyWorld)))
            = Some (rank sortOrder
                      (scoreChunks asciiLowerCase
                         (fst (fetchEmbedding hugeEnv (trim (query hugeState))
                                 emptyWorld))
                         (trim (query hugeState)) (index hugeState))))
    as Hask.
  { intros sortOrder.
    now rewrite (handleAsk_asks asciiLowerCase sortOrder hugeEnv hugeState
                   emptyWorld eq_refl). }
  set (scored := scoreChunks _ _ _ _) in *. clearbody scored.
  destruct scored as [|a [|b [|c scored]]]; try discriminate Hscores.
  injection Hscores as Ha Hb.
  assert (forall ranked, Permutation ranked [a; b] -> ~ Descending ranked)
    as Hnone.
  { assert (forall x y : Scored,
               numberLe (score y) (score x) = false -> ~ Descending [x; y])
      as Hpair.
    { intros x y Hle H. inversion H as [|? ? _ Hall]; subst.
      inversion Hall as [|? ? Hxy _]; subst. congruence. }
    intros ranked Hperm.
    apply Permutation_sym, Permutation_length_2_inv in Hperm.
    destruct Hperm as [-> | ->]; apply Hpair; rewrite Ha, Hb; reflexivity. }
  split; [exact Hnone|].
  intros sortOrder. exists (rank sortOrder [a; b]).
  assert (Permutation (rank sortOrder [a; b]) [a; b]) as Hperm.
  { unfold rank. rewrite slice_take, firstn_all2.
    - apply arraySort_permutation.
    - rewrite arraySort_length. cbn. lia. }
  split; [apply Hask|]. split; [exact Hperm|]. now apply Hnone.
Qed.

Lemma fallback_score_counts_overlap_witness :
  let question := trim (query storeState) in
  let scored := scoreChunks asciiLowerCase Null question storeChunks in
  In (mkScored closingChunk (Count 2)) scored
  /\ In (mkScored unrelatedChunk (Count 0)) scored
  /\ byScore (mkScored unrelatedChunk (Count 0))
             (mkScored closingChunk (Count 2)) = Gt.
Proof.
  cbv zeta.
  assert (In (mkScored closingChunk (Count 2))
             (scoreChunks asciiLowerCase Null (trim (query storeState))
                storeChunks)) as Ha by (right; left; reflexivity).
  assert (In (mkScored unrelatedChunk (Count 0))
             (scoreChunks asciiLowerCase Null (trim (query storeState))
                storeChunks)) as Hb by (left; reflexivity).
  split; [exact Ha|]. split; [exact Hb|].
  refine (proj1 (proj2 (proj2 (proj2
    (@fallback_score_counts_overlap asciiLowerCase Null
       (trim (query storeState)) storeChunks
       (mkScored closingChunk (Count 2)) (mkScored unrelatedChunk (Count 0))
       2 0 _ Ha Hb
       (filter_includes_count _ _) (filter_includes_count _ _)))) _)).
  - intros q. discriminate.
  - apply Nat.lt_0_succ.
Defined.



(** Scenario D: the generation provider answers with status 429. *)
Lemma generation_failure_gives_apology_witness :
  nonEmpty (trim (query storeState)) = true
  /\ ok 429 = false
  /\ option_map answer_text
       (answer (fst (handleAsk asciiLowerCase unsorted failingEnv storeState
                       emptyWorld)))
     = Some (Value apology)
  /\ option_map (fun a => map chunk (sources a))
       (answer (fst (handleAsk asciiLowerCase unsorted failingEnv storeState
                       emptyWorld)))
     = Some [closingChunk; unrelatedChunk; hoursChunk].
Proof.
  split; [reflexivity|]. split; [reflexivity|].
  rewrite (proj1 (@generation_failure_gives_apology asciiLowerCase unsorted
                    failingEnv storeState emptyWorld eq_refl)
             (Fails_status 429 (Parsed Undefined) eq_refl)).
  split; reflexivity.
Defined.

(** The generation provider answers with status 200 and the body [{}]:
    the text of the answer is [undefined], not the apology. *)
Lemma generation_shapeless_body_gives_undefined :
  ok 200 = true
  /\ answerEndpoint shapelessEnv 1
       (lit "closing procedure for the store"
        ++ separator ++ lit "Totally unrelated text"
        ++ separator ++ lit "Opening hours")
       (lit "How do I close the store?")
     = Response 200 (Parsed Undefined)
  /\ option_map answer_text
       (answer (fst (handleAsk asciiLowerCase unsorted shapelessEnv
                       storeState emptyWorld)))
     = Some Undefined
  /\ option_map answer_text
       (answer (fst (handleAsk asciiLowerCase unsorted shapelessEnv
                       storeState emptyWorld)))
     <> Some (Value apology).
Proof.
  split; [reflexivity|]. split; [reflexivity|].
  split; [vm_compute; reflexivity|].
  vm_compute. discriminate.
Qed.



(** Scenario E: a question of white space only. *)
Lemma empty_question_is_ignored_witness :
  trim (query blankState) = []
  /\ handleAsk asciiLowerCase unsorted failingEnv blankState emptyWorld
     = (blankState, emptyWorld).
Proof.
  split; [reflexivity|].
  exact (proj1 (@empty_question_is_ignored asciiLowerCase unsorted
                  failingEnv blankState emptyWorld eq_refl)).
Defined.

(** With the NaN score of the overflowing similarity the order of the
    sources is the engine's: one engine leaves the two chunks as they are,
    another one swaps them. *)
Example scenario_nan_score_follows_engine :
  map (fun sortOrder =>
         option_map (fun a => map (fun sc => id (chunk sc)) (sources a))
           (answer (fst (handleAsk asciiLowerCase sortOrder hugeEnv hugeState
                           emptyWorld))))
    [unsorted; fun _ => [1]]
  = [Some [lit "c1"; lit "c2"]; Some [lit "c2"; lit "c1"]].
Proof.
  vm_compute. reflexivity.
Qed.

(** Scenario A: a text of 600 code units gives a chunk of 500 and one of
    100. *)
Example scenario_A_two_chunks :
  option_map (map (fun ch => length (text ch)))
    (fst (chunkLoop failingEnv 601 500 (repeat 120%N 600) (lit "d1") 0 []
            emptyWorld))
  = Some [500; 100].
Proof.
  vm_compute. reflexivity.
Qed.

(** Scenario C: the chunk about closing the store shares the tokens
    "the" and "store" with the question and ranks first. *)
Example scenario_C_closing_ranks_first :
  option_map (fun a => map (fun sc => (id (chunk sc), score sc)) (sources a))
    (answer (fst (handleAsk asciiLowerCase unsorted failingEnv storeState
                    emptyWorld)))
  = Some [(lit "c2", Count 2); (lit "c1", Count 0); (lit "c3", Count 0)].
Proof.
  vm_compute. reflexivity.
Qed.

Lemma callAnswerAPI_reads_answer_witness :
  ok 200 = true
  /\ callAnswerAPI shapelessEnv (lit "context") (lit "question") emptyWorld
     = (Undefined,
        afterRequest emptyWorld (PostAnswer (lit "context") (lit "question"))).
Proof.
  split; [reflexivity|].
  exact (@callAnswerAPI_reads_answer shapelessEnv (lit "context")
           (lit "question") emptyWorld 200 Undefined eq_refl eq_refl).
Defined.

Lemma fetchEmbedding_reads_embedding_witness :
  ok 200 = true
  /\ fetchEmbedding servingEnv (lit "question") emptyWorld
     = (Value [1; 0]%float,
        afterRequest emptyWorld (PostEmbed (lit "question"))).
Proof.
  split; [reflexivity|].
  exact (@fetchEmbedding_reads_embedding servingEnv (lit "question")
           emptyWorld 200 (Value [1; 0]%float) eq_refl eq_refl).
Defined.

Lemma handleAsk_requests_witness :
  nonEmpty (trim (query storeState)) = true
  /\ exists context,
       requests (snd (handleAsk asciiLowerCase unsorted servingEnv storeState
                        emptyWorld))
       = requests emptyWorld
         ++ [PostEmbed (trim (query storeState));
             PostAnswer context (trim (query storeState))].
Proof.
  split; [reflexivity|].
  exact (@handleAsk_requests asciiLowerCase unsorted servingEnv storeState
           emptyWorld eq_refl).
Defined.

(** * The rest of the application *)

(** ** uuid without crypto.randomUUID *)

Lemma toString16_digit (v : N) :
  (v < 16)%N ->
  exists d, toString16 v = [d] /\ isHexUnit d = true.
Proof.
  intros Hv. destruct v as [|p]; [now exists 48%N|].
  do 4 (try destruct p as [p|p|]); try (exfalso; lia);
    eexists; split; reflexivity.
Qed.

Lemma variant_digit (r : N) :
  (r < 16)%N ->
  exists d, toString16 (N.lor (N.land r 3) 8) = [d] /\ In d (lit "89ab").
Proof.
  intros Hr. destruct r as [|p].
  - exists 56%N. split; [reflexivity|]. cbn. auto.
  - do 4 (try destruct p as [p|p|]); try (exfalso; lia);
      eexists; (split; [reflexivity|]); cbn; auto.
Qed.

Lemma replaceXY_fits (random16 : nat -> N) :
  (forall n, (random16 n < 16)%N) ->
  forall template k, Forall2 fits template (replaceXY random16 k template).
Proof.
  intros Hrandom. induction template as [|c rest IH]; intros k;
    cbn [replaceXY]; [constructor|].
  unfold uuidDigit, fits.
  destruct (c =? 120)%N eqn:Ex; cbn [orb].
  - destruct (toString16_digit (Hrandom k)) as (d & -> & Hd).
    constructor; [|apply IH]. now rewrite Ex.
  - destruct (c =? 121)%N eqn:Ey.
    + destruct (variant_digit (Hrandom k)) as (d & -> & Hd).
      constructor; [|apply IH]. now rewrite Ex, Ey.
    + constructor; [|apply IH]. now rewrite Ex, Ey.
Qed.

Lemma uuidDigit_x (r : N) :
  (r < 16)%N -> uuidDigit 120%N r = [hexDigit r].
Proof.
  intros Hr. unfold uuidDigit. cbn [N.eqb Pos.eqb].
  destruct r as [|p]; [reflexivity|].
  do 4 (try destruct p as [p|p|]); try (exfalso; lia); reflexivity.
Qed.

Lemma uuidDigit_y (r : N) :
  (r < 16)%N -> uuidDigit 121%N r = [hexDigit (N.lor (N.land r 3) 8)].
Proof.
  intros Hr. unfold uuidDigit. cbn [N.eqb Pos.eqb].
  destruct r as [|p]; [reflexivity|].
  do 4 (try destruct p as [p|p|]); try (exfalso; lia); reflexivity.
Qed.

(** X6: without [crypto.randomUUID], [uuid] returns a version 4
    identifier: 36 code units that follow the template place by place, the
    hyphens and the digit 4 kept, a hexadecimal digit in lower case for
    every [x] and one of 8, 9, a, b for the [y].  Every [x] and the [y]
    take one draw each, from left to right: the places of the 31 draws
    [k], [k + 1], ... are the 8, 4, 3, 1 + 3 and 12 places between the
    hyphens, and the draw number 15 gives the [y] its two low bits. *)
Theorem uuidFallback_follows_template (random16 : nat -> N) (k : nat) :
  (forall n, (random16 n < 16)%N) ->
  Forall2 fits uuidTemplate (uuidFallback random16 k)
  /\ length (uuidFallback random16 k) = 36
  /\ uuidFallback random16 k
     = map (fun n => hexDigit (random16 n)) (seq k 8)
       ++ [45%N]
       ++ map (fun n => hexDigit (random16 n)) (seq (8 + k) 4)
       ++ [45%N; 52%N]
       ++ map (fun n => hexDigit (random16 n)) (seq (12 + k) 3)
       ++ [45%N]
       ++ [hexDigit (N.lor (N.land (random16 (15 + k)) 3) 8)]
       ++ map (fun n => hexDigit (random16 n)) (seq (16 + k) 3)
       ++ [45%N]
       ++ map (fun n => hexDigit (random16 n)) (seq (19 + k) 12).
Proof.
  intros Hrandom.
  pose proof (@replaceXY_fits random16 Hrandom uuidTemplate k) as H.
  split; [exact H|]. split.
  - apply Forall2_length in H. unfold uuidFallback. rewrite <- H.
    reflexivity.
  - unfold uuidFallback.
    change uuidTemplate
      with (repeat 120%N 8 ++ [45%N] ++ repeat 120%N 4 ++ [45%N; 52%N]
            ++ repeat 120%N 3 ++ [45%N] ++ [121%N] ++ repeat 120%N 3
            ++ [45%N] ++ repeat 120%N 12).
    cbn [repeat app replaceXY N.eqb Pos.eqb orb seq map Nat.add].
    rewrite !uuidDigit_x, uuidDigit_y by apply Hrandom.
    reflexivity.
Qed.

Lemma uuidFallback_follows_template_witness :
  (forall n, (N.of_nat n mod 16 < 16)%N)
  /\ Forall2 fits uuidTemplate (uuidFallback (fun n => N.of_nat n mod 16)%N 0)
  /\ length (uuidFallback (fun n => N.of_nat n mod 16)%N 0) = 36
  /\ uuidFallback (fun n => N.of_nat n mod 16)%N 0
     = lit "01234567-89ab-4cde-b012-3456789abcde".
Proof.
  split; [intros n; apply N.mod_lt; discriminate|].
  destruct (@uuidFallback_follows_template (fun n => N.of_nat n mod 16)%N 0)
    as (Hfits & Hlength & Hdraws);
    [intros n; apply N.mod_lt; discriminate|].
  split; [exact Hfits|]. split; [exact Hlength|].
  rewrite Hdraws. vm_compute. reflexivity.
Defined.

(** ** Modes and the partner login *)

Lemma Reachable_admin (s : Session) :
  Reachable s -> mode s = Admin -> partnerLoggedIn s = false.
Proof.
  induction 1 as [|s e Hs IH Hoffered]; [reflexivity|].
  destruct e as [|value|]; cbn [react offered] in *.
  - unfold toggleMode. cbn [mode partnerLoggedIn].
    destruct (mode s); [discriminate|reflexivity].
  - exact IH.
  - unfold showsLogin in Hoffered. intros Hmode.
    unfold handlePartnerLogin in *.
    destruct (negb (jsString_eqb (trim (password s)) []));
      cbn [mode] in Hmode; rewrite Hmode in Hoffered; discriminate.
Qed.

(** X7: in every session the user can bring about, admin mode holds no
    partner login: leaving partner mode drops the login, so that the
    switch to partner mode always shows the login form and never the
    library or the question panel; the file input is shown in admin mode. *)
Theorem switch_to_partner_asks_login (s : Session) :
  Reachable s -> mode s = Admin ->
  partnerLoggedIn s = false
  /\ showsLogin (toggleMode s) = true
  /\ showsUpload (toggleMode s) = false
  /\ showsUpload s = true.
Proof.
  intros Hs Hmode. pose proof (Reachable_admin Hs Hmode) as Hlogin.
  unfold showsUpload, showsLogin, toggleMode. cbn [mode partnerLoggedIn].
  rewrite Hmode, Hlogin. auto.
Qed.

(** X8: the login form accepts every password that holds a code unit
    other than white space, and no other: a login that was not there is
    there after [handlePartnerLogin] exactly for such a password. *)
Theorem handlePartnerLogin_accepts_any_text (s : Session) :
  partnerLoggedIn (handlePartnerLogin s) = true
  <-> partnerLoggedIn s = true
      \/ existsb (fun c => negb (isWhiteSpace c)) (password s) = true.
Proof.
  unfold handlePartnerLogin.
  assert (jsString_eqb (trim (password s)) [] = true
          <-> existsb (fun c => negb (isWhiteSpace c)) (password s) = false)
    as Hblank.
  { rewrite jsString_eqb_eq, trim_empty.
    induction (password s) as [|c p IH]; cbn [forallb existsb]; [tauto|].
    destruct (isWhiteSpace c); cbn [andb orb negb]; [exact IH|].
    split; discriminate. }
  destruct (jsString_eqb (trim (password s)) []) eqn:E; cbn [negb].
  - rewrite (proj1 Hblank eq_refl). split; [auto|].
    intros [H|H]; [exact H|discriminate].
  - cbn [partnerLoggedIn]. split; [|reflexivity]. intros _. right.
    destruct (existsb _ (password s)); [reflexivity|].
    now specialize (proj2 Hblank eq_refl).
Qed.

(** ** downloadDoc *)

Lemma stripExtension_base (base ext : jsString) :
  ext <> [] -> forallb isExtensionUnit ext = true ->
  stripExtension (base ++ 46%N :: ext) = base.
Proof.
  intros Hne Hext. induction base as [|c base IH].
  - cbn [app stripExtension]. rewrite Hext.
    destruct ext; [contradiction|reflexivity].
  - cbn [app stripExtension]. rewrite IH.
    rewrite forallb_app. cbn [forallb].
    change (isExtensionUnit 46%N) with false. cbn [andb].
    now rewrite !andb_false_r.
Qed.

Lemma stripExtension_none (s : jsString) :
  (forall base ext, s = base ++ 46%N :: ext ->
     ext = [] \/ forallb isExtensionUnit ext = false) ->
  stripExtension s = s.
Proof.
  induction s as [|c rest IH]; intros Hnone; [reflexivity|].
  cbn [stripExtension].
  destruct ((c =? 46)%N && nonEmpty rest && forallb isExtensionUnit rest)
    eqn:E.
  - apply andb_prop in E. destruct E as [E Hext].
    apply andb_prop in E. destruct E as [Hc Hne].
    apply N.eqb_eq in Hc. subst c.
    destruct (Hnone [] rest eq_refl) as [->|H]; [discriminate Hne|].
    rewrite H in Hext. discriminate Hext.
  - f_equal. apply IH. intros base ext Hs.
    apply (Hnone (c :: base) ext). now rewrite Hs.
Qed.

(** X9: the file that [downloadDoc] offers is named after the document
    with its last extension replaced by [.txt]: the name loses what
    follows its last dot, and the dot, when that is not empty and holds no
    slash; otherwise (no dot, a dot at the end, or a slash after the last
    dot) the whole name is kept and [.txt] is appended. *)
Theorem downloadName_replaces_last_extension (doc : Doc) :
  (forall base ext,
     name doc = base ++ 46%N :: ext ->
     ext <> [] -> forallb isExtensionUnit ext = true ->
     downloadName doc = base ++ lit ".txt")
  /\ ((forall base ext,
         name doc = base ++ 46%N :: ext ->
         ext = [] \/ forallb isExtensionUnit ext = false) ->
      downloadName doc = name doc ++ lit ".txt").
Proof.
  unfold downloadName. split.
  - intros base ext -> Hne Hext. now rewrite stripExtension_base.
  - intros Hnone. now rewrite stripExtension_none.
Qed.

(** ** The upload *)

Lemma extractPdf_length (pdf : list (list jsString)) :
  forall fullText,
    length fullText + 2 * length pdf
    <= length (fold_left
                 (fun fullText items =>
                    fullText ++ [10; 10]%N ++ join (lit " ") items)
                 pdf fullText).
Proof.
  induction pdf as [|items pdf IH]; intros fullText; cbn [fold_left length].
  - lia.
  - specialize (IH (fullText ++ [10; 10]%N ++ join (lit " ") items)).
    rewrite !length_app in IH. cbn [length] in IH. lia.
Qed.

Lemma extractPdf_empty (file : File) :
  fst (extractPdf file) = []
  <-> file_pdf file = None \/ file_pdf file = Some [].
Proof.
  unfold extractPdf. destruct (file_pdf file) as [pdf|]; cbn [fst].
  - split.
    + intros H. right. destruct pdf as [|items pdf]; [reflexivity|].
      pose proof (extractPdf_length (items :: pdf) []) as Hlen.
      rewrite H in Hlen. cbn [length] in Hlen. lia.
    + intros [H|H]; [discriminate H|]. now injection H as ->.
  - split; auto.
Qed.

Lemma find_app {A : Type} (f : A -> bool) (xs ys : list A) :
  find f (xs ++ ys)
  = match find f xs with Some x => Some x | None => find f ys end.
Proof.
  induction xs as [|x xs IH]; [reflexivity|].
  cbn [app find]. now destruct (f x).
Qed.

Lemma NoDup_map_injective {A B : Type} (f : A -> B) (xs : list A) :
  (forall x y, f x = f y -> x = y) -> NoDup xs -> NoDup (map f xs).
Proof.
  intros Hf. induction 1 as [|x xs Hx _ IH]; cbn [map]; constructor;
    [|exact IH].
  intros Hin. apply in_map_iff in Hin. destruct Hin as (y & Hy & Hin).
  apply Hf in Hy. now subst y.
Qed.

Section Upload.

Variable env : Env.

Lemma chunkLoop_invariant (P : list Chunk -> World -> Prop) (size : nat)
  (txt d : jsString) :
  (forall newChunks w i,
     P newChunks w -> i < length txt ->
     let chunkText := slice txt i (i + size) in
     let embedded := fetchEmbedding env chunkText (snd (uuid env w)) in
     P (newChunks ++ [mkChunk (fst (uuid env w)) d chunkText (fst embedded)])
       (snd embedded)) ->
  forall fuel i newChunks w chunks w',
    P newChunks w ->
    chunkLoop env fuel size txt d i newChunks w = (Some chunks, w') ->
    P chunks w'.
Proof.
  intros Hstep. induction fuel as [|fuel IH]; intros i newChunks w chunks w' HP;
    cbn [chunkLoop]; [discriminate|].
  destruct (i <? length txt) eqn:Hi.
  - apply Nat.ltb_lt in Hi. specialize (Hstep newChunks w i HP Hi).
    cbv zeta in Hstep. unfold bind at 1.
    destruct (uuid env w) as [chunkId w1]. unfold bind at 1.
    cbn [fst snd] in Hstep.
    destruct (fetchEmbedding env (slice txt i (i + size)) w1) as [embed w2].
    apply IH. exact Hstep.
  - unfold ret. intros H. injection H as <- <-. exact HP.
Qed.

(** Everything one pass of the loop of [handleFileUpload] does. *)
Lemma ingestFile_trace (file : File) (st : AppState) (w : World) :
  exists newChunks w',
    ingestFile env file st w
    = (Some {| docs := docs st
                       ++ [mkDoc (randomUUID env (uuids w)) (file_name file)
                             (snd (extractPdf file)) (fst (extractPdf file))];
               index := index st ++ newChunks;
               query := query st;
               answer := answer st |},
       w')
    /\ chunksCover 500 (fst (extractPdf file)) (map text newChunks)
    /\ requests w'
       = requests w ++ map (fun ch => PostEmbed (text ch)) newChunks
    /\ uuids w' = S (uuids w) + length newChunks
    /\ map id newChunks
       = map (randomUUID env) (seq (S (uuids w)) (length newChunks))
    /\ Forall (fun ch => docId ch = randomUUID env (uuids w)) newChunks
    /\ Forall (fun ch =>
                 exists w0,
                   embedding ch = fst (fetchEmbedding env (text ch) w0))
              newChunks.
Proof.
  unfold ingestFile. destruct (extractPdf file) as [txt pages]. cbn [fst snd].
  unfold bind at 1. cbn [uuid].
  set (d := randomUUID env (uuids w)).
  set (w1 := {| requests := requests w; uuids := S (uuids w) |}).
  destruct (@chunkLoop_covers env 500 txt d ltac:(lia) (S (length txt)) 0 []
              w1 ltac:(lia)) as (chunks & w' & Hrun & Hcover).
  cbn [app skipn] in Hrun, Hcover.
  unfold bind at 1. rewrite Hrun. cbn [ret].
  exists chunks, w'. split; [reflexivity|]. split; [exact Hcover|].
  pose (P := fun (acc : list Chunk) (w2 : World) =>
               requests w2
               = requests w ++ map (fun ch => PostEmbed (text ch)) acc
               /\ uuids w2 = S (uuids w) + length acc
               /\ map id acc
                  = map (randomUUID env) (seq (S (uuids w)) (length acc))
               /\ Forall (fun ch => docId ch = d) acc
               /\ Forall (fun ch =>
                            exists w0,
                              embedding ch
                              = fst (fetchEmbedding env (text ch) w0))
                         acc).
  refine (@chunkLoop_invariant P 500 txt d _ (S (length txt)) 0 [] w1 chunks
            w' _ Hrun).
  - intros acc w2 i (Hreq & Hids & Hmap & Hdoc & Hemb) _. unfold P.
    cbn [uuid fst snd fetchEmbedding bind postEmbed ret requests uuids].
    rewrite !length_app, !map_app, seq_app, map_app. cbn [length map seq].
    repeat split.
    + rewrite Hreq, <- app_assoc. reflexivity.
    + lia.
    + rewrite Hmap. do 3 f_equal. cbn [id]. f_equal. lia.
    + apply Forall_app. split; [exact Hdoc|]. now constructor.
    + apply Forall_app. split; [exact Hemb|]. constructor; [|constructor].
      cbn [embedding text]. eexists. reflexivity.
  - unfold P. cbn. rewrite app_nil_r. repeat split; auto.
Qed.

(** X10: ingesting one file asks for exactly one embedding per chunk it
    adds, with the text of the chunk as input, in the order of the chunks,
    and makes no other request. *)
Theorem ingestFile_embeds_each_chunk (file : File) (st : AppState)
  (w : World) :
  exists st' w' newChunks,
    ingestFile env file st w = (Some st', w')
    /\ index st' = index st ++ newChunks
    /\ requests w'
       = requests w ++ map (fun ch => PostEmbed (text ch)) newChunks.
Proof.
  destruct (ingestFile_trace file st w)
    as (newChunks & w' & Hrun & _ & Hreq & _).
  eexists _, w', newChunks. split; [exact Hrun|]. split; [reflexivity|].
  exact Hreq.
Qed.

(** X11: ingesting one file adds one document and gives every chunk it
    adds the identifier of that document; when the generator of
    identifiers never repeats itself, the identifiers of the document and
    the chunks added are pairwise distinct. *)
Theorem ingestFile_identifies (file : File) (st : AppState) (w : World) :
  (forall m n, randomUUID env m = randomUUID env n -> m = n) ->
  exists st' w' newDoc newChunks,
    ingestFile env file st w = (Some st', w')
    /\ docs st' = docs st ++ [newDoc]
    /\ index st' = index st ++ newChunks
    /\ name newDoc = file_name file
    /\ Forall (fun ch => docId ch = doc_id newDoc) newChunks
    /\ NoDup (doc_id newDoc :: map id newChunks).
Proof.
  intros Hfresh.
  destruct (ingestFile_trace file st w)
    as (newChunks & w' & Hrun & _ & _ & _ & Hids & Hdoc & _).
  eexists _, w', _, newChunks. split; [exact Hrun|].
  cbn [docs index name doc_id].
  repeat split; try reflexivity; try exact Hdoc.
  rewrite Hids. cbn [doc_id].
  change (randomUUID env (uuids w)
          :: map (randomUUID env) (seq (S (uuids w)) (length newChunks)))
    with (map (randomUUID env) (seq (uuids w) (S (length newChunks)))).
  apply NoDup_map_injective; [exact Hfresh|apply seq_NoDup].
Qed.

(** X12: a file adds no chunk exactly when its text could not be
    extracted or it has no page; its document is added all the same, with
    the pages counted, and then no request is made.  A PDF with a page
    always adds a chunk, even if no page holds text. *)
Theorem ingestFile_without_text (file : File) (st : AppState) (w : World) :
  exists st' w' newDoc newChunks,
    ingestFile env file st w = (Some st', w')
    /\ docs st' = docs st ++ [newDoc]
    /\ index st' = index st ++ newChunks
    /\ pages newDoc
       = match file_pdf file with Some pdf => length pdf | None => 0 end
    /\ (newChunks = []
        <-> file_pdf file = None \/ file_pdf file = Some [])
    /\ (newChunks = [] -> content newDoc = [] /\ requests w' = requests w).
Proof.
  destruct (ingestFile_trace file st w)
    as (newChunks & w' & Hrun & (Hcat & Hlen & _) & Hreq & _).
  eexists _, w', _, newChunks. split; [exact Hrun|].
  cbn [docs index pages content].
  split; [reflexivity|]. split; [reflexivity|].
  split; [unfold extractPdf; now destruct (file_pdf file)|].
  split; [split|].
  - intros ->. apply extractPdf_empty. now rewrite <- Hcat.
  - intros H. apply extractPdf_empty in H. rewrite H in Hlen.
    cbn in Hlen. rewrite length_map in Hlen.
    now apply length_zero_iff_nil.
  - intros ->. split; [now rewrite <- Hcat|].
    rewrite Hreq. apply app_nil_r.
Qed.

(** X13: when the embedding provider fails every request, a file is
    ingested all the same: its chunks are stored with a [null] embedding
    and their texts still make up the extracted text. *)
Theorem ingestFile_without_embeddings (file : File) (st : AppState)
  (w : World) :
  (forall n input, Fails (embedEndpoint env n input)) ->
  exists st' w' newChunks,
    ingestFile env file st w = (Some st', w')
    /\ index st' = index st ++ newChunks
    /\ Forall (fun ch => embedding ch = Null) newChunks
    /\ concat (map text newChunks) = fst (extractPdf file).
Proof.
  intros Hfails.
  destruct (ingestFile_trace file st w)
    as (newChunks & w' & Hrun & (Hcat & _) & _ & _ & _ & _ & Hemb).
  eexists _, w', newChunks. split; [exact Hrun|].
  split; [reflexivity|]. split; [|exact Hcat].
  eapply Forall_impl; [|exact Hemb]. cbn beta.
  intros ch (w0 & ->).
  now rewrite (@fetchEmbedding_fails env (text ch) w0 (Hfails _ _)).
Qed.

Lemma ingestFile_resolved (file : File) (st st' : AppState) (w w' : World) :
  ingestFile env file st w = (Some st', w') ->
  Resolved st ->
  Resolved st'
  /\ map name (docs st') = map name (docs st) ++ [file_name file]
  /\ query st' = query st /\ answer st' = answer st.
Proof.
  intros Hrun Hst.
  destruct (ingestFile_trace file st w)
    as (newChunks & w1 & Hrun1 & _ & _ & _ & _ & Hdoc & _).
  rewrite Hrun1 in Hrun. injection Hrun as <- <-.
  cbn [docs query answer]. rewrite map_app. cbn [map name].
  repeat split. intros ch Hch. cbn [index docs] in *.
  unfold findDoc. rewrite find_app.
  apply in_app_or in Hch. destruct Hch as [Hch|Hch].
  - destruct (Hst ch Hch) as (doc & Hfind & Hid).
    unfold findDoc in Hfind. rewrite Hfind. now exists doc.
  - destruct (find _ (docs st)) as [doc|] eqn:Hfind.
    + exists doc. split; [reflexivity|].
      apply find_some in Hfind. now apply jsString_eqb_eq.
    + rewrite Forall_forall in Hdoc. specialize (Hdoc ch Hch).
      cbn [find doc_id]. rewrite Hdoc.
      rewrite (proj2 (jsString_eqb_eq _ _) eq_refl).
      eexists. split; reflexivity.
Qed.

(** X14: an upload of any number of files ends and adds one document per
    file, in the order of the files and under the name of the file; if
    every chunk of the index belonged to a document of the library before,
    so it does after, and the list of sources names the document of each
    chunk and never [Unknown document]; the question and the answer are
    left as they are. *)
Theorem handleFileUpload_keeps_sources_named (files : list File)
  (st : AppState) (w : World) :
  Resolved st ->
  exists st' w',
    handleFileUpload env files st w = (Some st', w')
    /\ map name (docs st') = map name (docs st) ++ map file_name files
    /\ (forall ch, In ch (index st') ->
          exists doc,
            In doc (docs st') /\ doc_id doc = docId ch
            /\ sourceLabel (docs st') ch
               = name doc ++ [32; 8211; 32]%N ++ lit "chunk "
                 ++ slice (id ch) 0 8)
    /\ query st' = query st /\ answer st' = answer st.
Proof.
  revert st w. induction files as [|file files IH]; intros st w Hst;
    cbn [handleFileUpload].
  - exists st, w. cbn [map]. rewrite app_nil_r.
    repeat split. intros ch Hch.
    destruct (Hst ch Hch) as (doc & Hfind & Hid). exists doc.
    unfold sourceLabel. rewrite Hfind.
    repeat split; [|exact Hid].
    unfold findDoc in Hfind. now apply find_some in Hfind.
  - destruct (ingestFile_ends env file st w) as (st1 & w1 & Hrun).
    unfold bind. rewrite Hrun.
    destruct (@ingestFile_resolved file st st1 w w1 Hrun Hst)
      as (Hst1 & Hnames & Hquery & Hanswer).
    destruct (IH st1 w1 Hst1) as (st' & w' & Hrun' & Hnames' & Hsrc & Hq & Ha).
    exists st', w'. split; [exact Hrun'|].
    rewrite Hnames', Hnames, <- app_assoc, Hq, Ha.
    repeat split; assumption.
Qed.

End Upload.

(** ** An ask before any upload *)

(** X15: an ask on an empty index still asks both providers: the
    embedding of the question is requested, then an answer is requested
    with the empty context, and the answer shown has no source. *)
Theorem ask_without_documents (toLowerCase : jsString -> jsString)
  (sortOrder : list Scored -> list nat) (env : Env) (st : AppState)
  (w : World) :
  nonEmpty (trim (query st)) = true ->
  index st = [] ->
  exists answerText w',
    handleAsk toLowerCase sortOrder env st w
    = (setAnswer st (Some (mkAnswer answerText [])), w')
    /\ requests w'
       = requests w ++ [PostEmbed (trim (query st));
                        PostAnswer [] (trim (query st))].
Proof.
  intros Hq Hindex. rewrite (handleAsk_asks toLowerCase sortOrder env st w Hq).
  rewrite Hindex.
  assert (rank sortOrder (scoreChunks toLowerCase
                  (fst (fetchEmbedding env (trim (query st)) w))
                  (trim (query st)) []) = []) as ->
    by (destruct (fst (fetchEmbedding env (trim (query st)) w)); reflexivity).
  do 2 eexists. split; [reflexivity|].
  cbn [snd assembleContext map join].
  unfold callAnswerAPI, fetchEmbedding, bind, postAnswer, postEmbed, ret.
  cbn [fst snd requests]. rewrite <- app_assoc. reflexivity.
Qed.

(** ** The serverless functions *)

Lemma ok_200 : ok 200 = true.
Proof. reflexivity. Qed.

(** X16: the embed function replies with a success status only in one
    way: the request is a POST whose input is a string that is not empty,
    the provider was asked once, for that input, and answered a success
    with a JSON body; the reply then has status 200 and the embedding of
    that body, or the empty array when the body holds none.  The provider
    is asked at most once, and only for such a request. *)
Theorem embedHandler_success
  (provider : jsString -> Awaited (ProviderResponse (Nullable (list float))))
  (req : EmbedRequest) :
  (ok (reply_status (fst (embedHandler provider req))) = true ->
   exists input response data_embedding,
     provider input = Resolves response
     /\ ok (provider_status response) = true
     /\ provider_json response = Resolves data_embedding
     /\ embedHandler provider req
        = (mkReply 200 (DataPayload (orEmpty data_embedding)), [input]))
  /\ (forall input,
        In input (snd (embedHandler provider req)) ->
        snd (embedHandler provider req) = [input]
        /\ input <> []
        /\ embed_method req = lit "POST"
        /\ embed_input req = Text input).
Proof.
  unfold embedHandler.
  destruct (jsString_eqb (embed_method req) (lit "POST")) eqn:Hmethod;
    cbn [negb fst snd reply_status];
    [apply jsString_eqb_eq in Hmethod|split; [discriminate|contradiction]].
  destruct (embed_input req) as [| |[|c s]];
    try (split; [discriminate|contradiction]).
  cbn [fst snd]. split.
  - destruct (provider (c :: s)) as [message|response] eqn:Hprovider;
      [discriminate|].
    destruct (ok (provider_status response)) eqn:Hok; cbn [negb].
    + destruct (provider_json response) as [message|data_embedding]
        eqn:Hjson; [discriminate|].
      intros _. now exists (c :: s), response, data_embedding.
    + destruct (provider_text response); cbn [reply_status];
        [discriminate|]. congruence.
  - intros input [<-|[]]. repeat split; [discriminate|assumption].
Qed.

Section Functions.

Variable typeErrorMessage : jsString.


(** ** The client in front of the functions *)

Variable toLowerCase : jsString -> jsString.
Variable sortOrder : list Scored -> list nat.
Variable embeddings
  : jsString -> Awaited (ProviderResponse (Nullable (list float))).
Variable completions : ChatRequest -> Awaited (ProviderResponse ChatData).
Variable identifiers : nat -> jsString.

Local Abbreviation env :=
  (deployed typeErrorMessage embeddings completions identifiers).

Local Abbreviation asked context question :=
  (completions
     (mkChatRequest systemPrompt
        (context ++ [10; 10]%N ++ lit "Question: " ++ question))).

Lemma deployed_fetchEmbedding (input : jsString) (w : World) :
  fst (fetchEmbedding env input w)
  = match input, embeddings input with
    | _ :: _, Resolves response =>
        if ok (provider_status response) then
          match provider_json response with
          | Resolves data_embedding =>
              Value (map throughJson (orEmpty data_embedding))
          | Throws _ => Null
          end
        else Null
    | _, _ => Null
    end.
Proof.
  cbv zeta.
  unfold fetchEmbedding, bind, postEmbed, ret, deployed, overHttp,
    embedHandler.
  cbn [embedEndpoint fst snd embed_method embed_input].
  change (jsString_eqb (lit "POST") (lit "POST")) with true. cbn [negb].
  destruct input as [|c s]; cbn [fst reply_status reply_payload];
    [reflexivity|].
  destruct (embeddings (c :: s)) as [message|response]; [reflexivity|].
  destruct (ok (provider_status response)) eqn:Hok; cbn [negb].
  - destruct (provider_json response) as [message|data_embedding];
      reflexivity.
  - destruct (provider_text response); cbn [reply_status reply_payload];
      [reflexivity|]. now rewrite Hok.
Qed.

(** X18: in front of the embed function of the repository,
    [fetchEmbedding] returns [null] exactly when the text is empty or the
    provider fails, and otherwise the array the function took from the
    provider, the empty array when the provider's body holds no embedding;
    it never returns [undefined]. *)
Theorem deployed_embedding_null_iff_failure (input : jsString) (w : World) :
  (fst (fetchEmbedding env input w) = Null
   <-> input = [] \/ ProviderFails (embeddings input))
  /\ fst (fetchEmbedding env input w) <> Undefined
  /\ (forall response data_embedding,
        input <> [] ->
        embeddings input = Resolves response ->
        ok (provider_status response) = true ->
        provider_json response = Resolves data_embedding ->
        fst (fetchEmbedding env input w)
        = Value (map throughJson (orEmpty data_embedding))).
Proof.
  cbv zeta. rewrite (deployed_fetchEmbedding input w). cbv zeta.
  split; [split|split].
  - intros Hnull. destruct input as [|c s]; [now left|right].
    destruct (embeddings (c :: s)) as [message|response]; [constructor|].
    destruct (ok (provider_status response)) eqn:Hok;
      [|now apply ProviderFails_status].
    destruct (provider_json response) as [message|data_embedding] eqn:Hjson;
      [|discriminate Hnull].
    eapply ProviderFails_malformed. exact Hjson.
  - intros [->|H]; [reflexivity|]. destruct input as [|c s]; [reflexivity|].
    destruct H as [message|response Hok|response message Hjson].
    + reflexivity.
    + now rewrite Hok.
    + rewrite Hjson. now destruct (ok (provider_status response)).
  - destruct input as [|c s]; [discriminate|].
    destruct (embeddings (c :: s)) as [message|response]; [discriminate|].
    destruct (ok (provider_status response)); [|discriminate].
    destruct (provider_json response); discriminate.
  - intros response data_embedding Hinput Hprovider Hok Hjson.
    destruct input; [contradiction|]. now rewrite Hprovider, Hok, Hjson.
Qed.

Lemma deployed_callAnswerAPI (context question : jsString) (w : World) :
  fst (callAnswerAPI env context question w)
  = Value match question, asked context question with
          | _ :: _, Resolves response =>
              if ok (provider_status response) then
                match provider_json response with
                | Resolves (ChatContent message_content) =>
                    trimmedOrEmpty message_content
                | _ => apology
                end
              else apology
          | _, _ => apology
          end.
Proof.
  cbv zeta.
  unfold callAnswerAPI, bind, postAnswer, ret, deployed, overHttp,
    answerHandler.
  cbn [answerEndpoint fst snd answer_method answer_question answer_context
       interpolate].
  change (jsString_eqb (lit "POST") (lit "POST")) with true. cbn [negb].
  destruct question as [|c s]; cbn [fst reply_status reply_payload];
    [reflexivity|].
  destruct (completions _) as [message|response]; [reflexivity|].
  destruct (ok (provider_status response)) eqn:Hok; cbn [negb].
  - destruct (provider_json response) as [message|[|message_content]];
      reflexivity.
  - destruct (provider_text response); cbn [reply_status reply_payload];
      [reflexivity|]. now rewrite Hok.
Qed.

(** X19: in front of the answer function of the repository, what
    [callAnswerAPI] returns is always a string: the content of the
    provider's first choice, trimmed (empty when there is none), when the
    provider answers a success with a JSON body that is not [null], and
    the apology in every other case; hence every answer that an ask shows
    has a string as its text. *)
Theorem deployed_answer_is_text (context question : jsString) (w : World) :
  (forall response message_content,
     question <> [] ->
     asked context question = Resolves response ->
     ok (provider_status response) = true ->
     provider_json response = Resolves (ChatContent message_content) ->
     fst (callAnswerAPI env context question w)
     = Value (trimmedOrEmpty message_content))
  /\ (question = [] \/ ProviderFails (asked context question)
      \/ (exists response,
            asked context question = Resolves response
            /\ provider_json response = Resolves ChatNull) ->
      fst (callAnswerAPI env context question w) = Value apology)
  /\ (forall st w0,
        nonEmpty (trim (query st)) = true ->
        exists s top,
          answer (fst (handleAsk toLowerCase sortOrder env st w0))
          = Some (mkAnswer (Value s) top)).
Proof.
  cbv zeta. split; [|split].
  - intros response message_content Hq Hasked Hok Hjson.
    rewrite (deployed_callAnswerAPI context question w). cbv zeta.
    destruct question; [contradiction|]. now rewrite Hasked, Hok, Hjson.
  - intros H. rewrite (deployed_callAnswerAPI context question w). cbv zeta.
    destruct question as [|c s]; [reflexivity|].
    destruct H as [H|[H|(response & Hasked & Hjson)]]; [discriminate H| |].
    + set (provided := completions _) in *. clearbody provided.
      destruct H as [message|response Hok|response message Hjson];
        [reflexivity|now rewrite Hok|].
      rewrite Hjson. now destruct (ok (provider_status response)).
    + rewrite Hasked, Hjson. now destruct (ok (provider_status response)).
  - intros st w0 Hq.
    rewrite (handleAsk_asks toLowerCase sortOrder _ st w0 Hq). cbn [fst answer setAnswer].
    rewrite deployed_callAnswerAPI. cbv zeta. eauto.
Qed.

End Functions.

(** ** The size of the context *)

Lemma assembleContext_bound (top : list Scored) :
  Forall (fun sc => length (text (chunk sc)) <= 500) top ->
  length top <= 5 ->
  length (assembleContext top) <= 2520.
Proof.
  intros Hbound Htop. unfold assembleContext.
  rewrite join_length, map_map, length_map.
  change (length separator) with 5.
  assert (list_sum (map (fun sc => length (text (chunk sc))) top)
          <= length top * 500) as Hsum.
  { clear Htop. induction Hbound as [|sc top Hsc _ IH]; [apply Nat.le_refl|].
    rewrite map_cons. cbn [list_sum fold_right length].
    fold (list_sum (map (fun sc => length (text (chunk sc))) top)). lia. }
  lia.
Qed.

Section ContextSize.

Variable toLowerCase : jsString -> jsString.
Variable sortOrder : list Scored -> list nat.
Variable env : Env.

Lemma handleFileUpload_bounded (files : list File) :
  forall st w,
    Forall (fun ch => length (text ch) <= 500) (index st) ->
    exists st' w',
      handleFileUpload env files st w = (Some st', w')
      /\ Forall (fun ch => length (text ch) <= 500) (index st').
Proof.
  induction files as [|file files IH]; intros st w Hst;
    cbn [handleFileUpload].
  - now exists st, w.
  - destruct (ingestFile_trace env file st w)
      as (newChunks & w1 & Hrun & (_ & _ & _ & Hbound) & _).
    unfold bind. rewrite Hrun. apply IH. cbn [index].
    apply Forall_app. split; [exact Hst|].
    apply Forall_map in Hbound.
    eapply Forall_impl; [|exact Hbound]. cbn beta. intros ch H. apply H.
Qed.

(** X20: chunks of at most 500 code units keep the context small: if no
    chunk of the index is longer than 500 before an upload, none is after
    it, and every ask on that index sends the generation provider a
    context of at most 2520 code units, five chunks and four
    separators. *)
Theorem context_bounded_after_uploads (files : list File) (st : AppState)
  (w : World) :
  Forall (fun ch => length (text ch) <= 500) (index st) ->
  exists st' w',
    handleFileUpload env files st w = (Some st', w')
    /\ Forall (fun ch => length (text ch) <= 500) (index st')
    /\ forall asking w0,
         index asking = index st' ->
         nonEmpty (trim (query asking)) = true ->
         exists context,
           requests (snd (handleAsk toLowerCase sortOrder env asking w0))
           = requests w0 ++ [PostEmbed (trim (query asking));
                             PostAnswer context (trim (query asking))]
           /\ length context <= 2520.
Proof.
  intros Hst.
  destruct (handleFileUpload_bounded files st w Hst)
    as (st' & w' & Hrun & Hbound).
  exists st', w'. split; [exact Hrun|]. split; [exact Hbound|].
  intros asking w0 Hindex Hq.
  rewrite (handleAsk_asks toLowerCase sortOrder env asking w0 Hq).
  eexists. split.
  - cbn [snd].
    unfold callAnswerAPI, fetchEmbedding, bind, postAnswer, postEmbed, ret.
    cbn [fst snd requests]. rewrite <- app_assoc. reflexivity.
  - apply assembleContext_bound.
    + apply Forall_forall. intros sc Hsc. apply In_rank in Hsc.
      rewrite Forall_forall in Hbound. apply Hbound.
      rewrite <- Hindex.
      rewrite <- (scoreChunks_chunks toLowerCase
                    (fst (fetchEmbedding env (trim (query asking)) w0))
                    (trim (query asking)) (index asking)).
      now apply in_map.
    + rewrite rank_length. apply Nat.le_min_r.
Qed.

End ContextSize.

(** * Instances of the theorems on the rest of the application *)

Lemma switch_to_partner_asks_login_witness :
  Reachable returnedSession
  /\ mode returnedSession = Admin
  /\ partnerLoggedIn returnedSession = false
  /\ showsLogin (toggleMode returnedSession) = true
  /\ showsUpload (toggleMode returnedSession) = false
  /\ showsUpload returnedSession = true.
Proof.
  assert (Reachable returnedSession) as Hreach.
  { unfold returnedSession.
    repeat (apply Reachable_event; [|reflexivity]). apply Reachable_start. }
  split; [exact Hreach|]. split; [reflexivity|].
  exact (@switch_to_partner_asks_login returnedSession Hreach eq_refl).
Defined.

Lemma ingestFile_identifies_witness :
  (forall m n,
     randomUUID servingEnv m = randomUUID servingEnv n -> m = n)
  /\ exists st' w' newDoc newChunks,
       ingestFile servingEnv manualFile emptyState emptyWorld = (Some st', w')
       /\ docs st' = docs emptyState ++ [newDoc]
       /\ index st' = index emptyState ++ newChunks
       /\ name newDoc = file_name manualFile
       /\ Forall (fun ch => docId ch = doc_id newDoc) newChunks
       /\ NoDup (doc_id newDoc :: map id newChunks).
Proof.
  assert (forall m n,
            randomUUID servingEnv m = randomUUID servingEnv n -> m = n)
    as Hfresh.
  { intros m n H. injection H as H. now apply Nat2N.inj. }
  split; [exact Hfresh|].
  exact (@ingestFile_identifies servingEnv manualFile emptyState emptyWorld
           Hfresh).
Defined.

Lemma ingestFile_without_embeddings_witness :
  (forall n input, Fails (embedEndpoint failingEnv n input))
  /\ exists st' w' newChunks,
       ingestFile failingEnv manualFile emptyState emptyWorld = (Some st', w')
       /\ index st' = index emptyState ++ newChunks
       /\ Forall (fun ch => embedding ch = Null) newChunks
       /\ concat (map text newChunks) = fst (extractPdf manualFile).
Proof.
  assert (forall n input, Fails (embedEndpoint failingEnv n input))
    as Hfails.
  { intros n input. apply Fails_status. reflexivity. }
  split; [exact Hfails|].
  exact (@ingestFile_without_embeddings failingEnv manualFile emptyState
           emptyWorld Hfails).
Defined.

Lemma handleFileUpload_keeps_sources_named_witness :
  Resolved emptyState
  /\ exists st' w',
       handleFileUpload servingEnv [manualFile; manualFile] emptyState
         emptyWorld
       = (Some st', w')
       /\ map name (docs st')
          = map name (docs emptyState)
            ++ map file_name [manualFile; manualFile]
       /\ (forall ch, In ch (index st') ->
             exists doc,
               In doc (docs st') /\ doc_id doc = docId ch
               /\ sourceLabel (docs st') ch
                  = name doc ++ [32; 8211; 32]%N ++ lit "chunk "
                    ++ slice (id ch) 0 8)
       /\ query st' = query emptyState /\ answer st' = answer emptyState.
Proof.
  assert (Resolved emptyState) as Hresolved by (intros ch []).
  split; [exact Hresolved|].
  exact (@handleFileUpload_keeps_sources_named servingEnv
           [manualFile; manualFile] emptyState emptyWorld Hresolved).
Defined.

Lemma ask_without_documents_witness :
  nonEmpty (trim (query emptyState)) = true
  /\ index emptyState = []
  /\ exists answerText w',
       handleAsk asciiLowerCase unsorted servingEnv emptyState emptyWorld
       = (setAnswer emptyState (Some (mkAnswer answerText [])), w')
       /\ requests w'
          = requests emptyWorld
            ++ [PostEmbed (trim (query emptyState));
                PostAnswer [] (trim (query emptyState))].
Proof.
  split; [reflexivity|]. split; [reflexivity|].
  exact (@ask_without_documents asciiLowerCase unsorted servingEnv
           emptyState emptyWorld eq_refl eq_refl).
Defined.

Lemma context_bounded_after_uploads_witness :
  Forall (fun ch => length (text ch) <= 500) (index emptyState)
  /\ exists st' w',
       handleFileUpload servingEnv [manualFile] emptyState emptyWorld
       = (Some st', w')
       /\ Forall (fun ch => length (text ch) <= 500) (index st')
       /\ forall asking w0,
            index asking = index st' ->
            nonEmpty (trim (query asking)) = true ->
            exists context,
              requests (snd (handleAsk asciiLowerCase unsorted servingEnv asking w0))
              = requests w0 ++ [PostEmbed (trim (query asking));
                                PostAnswer context (trim (query asking))]
              /\ length context <= 2520.
Proof.
  split; [constructor|].
  exact (@context_bounded_after_uploads asciiLowerCase unsorted servingEnv
           [manualFile] emptyState emptyWorld (Forall_nil _)).
Defined.

(** An upload and an ask in the deployed application: the text of the
    answer is the completion, trimmed by the answer function, and the
    source is labelled with the name of the file. *)
Example scenario_deployed_upload_and_ask :
  match fst (handleFileUpload answeringEnv [manualFile] emptyState emptyWorld)
  with
  | Some st =>
      option_map
        (fun a =>
           (answer_text a,
            map (fun sc => sourceLabel (docs st) (chunk sc)) (sources a)))
        (answer (fst (handleAsk asciiLowerCase unsorted answeringEnv st emptyWorld)))
  | None => None
  end
  = Some (Value (lit "Lock the door."),
          [lit "manual.pdf" ++ [32; 8211; 32]%N ++ lit "chunk " ++ [1%N]]).
Proof.
  vm_compute. reflexivity.
Qed.

(** The names of the downloads. *)
Example scenario_download_names :
  map (fun n => downloadName (mkDoc [] (lit n) 0 []))
    ["manual.pdf"; "ops.manual.v2.pdf"; "README"; "notes."; "a.b/c"]%string
  = map lit ["manual.txt"; "ops.manual.v2.txt"; "README.txt"; "notes..txt";
             "a.b/c.txt"]%string.
Proof.
  vm_compute. reflexivity.
Qed.
